(** * Conversation-context assembly and turn taking of the agent platform

    A shallow embedding of [app/models], [app/services/chat_service.py],
    [app/services/voice_service.py], the two message endpoints of
    [app/views/chatsession.py] and [config/config_manager.py].  The
    relational store, the LLM client, the speech client and the temporary
    directory are the external collaborators of the services; they appear
    here as an explicit world state that is threaded through every call, and
    an environment of oracles that says how each remote call answers. *)

From Stdlib Require Import ZArith.
From Stdlib.Strings Require Import Byte.
From stdpp Require Import base option list gmap strings sorting.

Local Open Scope Z_scope.

(** ** app/models *)

(** [Agent]: [name], [prompt] and the two automatic timestamps. *)
Module Agent.

Record t := Build {
  name : string;
  prompt : string;
  created_at : Z;
  updated_at : Z
}.

End Agent.

(** [ChatSession]: the foreign key to its agent and [created_at]. *)
Module ChatSession.

Record t := Build {
  agent : Z;
  created_at : Z
}.

End ChatSession.

(** [Message]: [role] is a [CharField], so a row holds a string. *)
Module Message.

Definition USER : string := "user".
Definition AGENT : string := "agent".
Definition ROLE_CHOICES : list (string * string) :=
  [(USER, "User"%string); (AGENT, "Agent"%string)].

Record t := Build {
  id : Z;
  session : Z;
  role : string;
  content : string;
  created_at : Z
}.

Definition created_le (m1 m2 : t) : Prop := created_at m1 ≤ created_at m2.

(** The values a form or serializer would accept for [role]. *)
Definition role_in_choices (r : string) : bool :=
  bool_decide (r ∈ ROLE_CHOICES.*1).

End Message.

#[global] Instance created_le_dec m1 m2 : Decision (Message.created_le m1 m2).
Proof. unfold Message.created_le. apply _. Defined.

#[global] Instance message_eq_dec : EqDecision Message.t.
Proof. solve_decision. Defined.

(** ** The record store *)

(** The three tables.  Agents and sessions are keyed by primary key; the
    message table keeps its rows in insertion order.  The [*_seq] fields are
    the last primary key handed out by each auto-increment column. *)
Record Database := MkDatabase {
  agents : gmap Z Agent.t;
  sessions : gmap Z ChatSession.t;
  messages : list Message.t;
  agent_seq : Z;
  session_seq : Z;
  message_seq : Z
}.

Definition empty_db : Database :=
  MkDatabase ∅ ∅ [] 0 0 0.

(** [ORDER BY created_at] is answered by the database engine.  The query
    names no second sort key, so all the services can rely on is that the
    engine returns the same rows, sorted on that one column. *)
Class RecordStore := {
  order_by_created_at : list Message.t → list Message.t;
  order_by_created_at_perm l : order_by_created_at l ≡ₚ l;
  order_by_created_at_sorted l : Sorted Message.created_le (order_by_created_at l)
}.

(** Rows compared on [created_at], rows of equal time on the primary
    key. *)
Definition rowid_asc (m1 m2 : Message.t) : Prop :=
  Message.created_at m1 < Message.created_at m2
  ∨ (Message.created_at m1 = Message.created_at m2 ∧ Message.id m1 ≤ Message.id m2).

#[global] Instance rowid_asc_dec m1 m2 : Decision (rowid_asc m1 m2).
Proof. unfold rowid_asc. apply _. Defined.

#[global] Instance rowid_asc_total : Total rowid_asc.
Proof. intros m1 m2. unfold rowid_asc. lia. Qed.

Lemma Sorted_weaken {A} (R R' : relation A) l :
  (∀ x y, R x y → R' x y) → Sorted R l → Sorted R' l.
Proof.
  intros HR. induction 1 as [|x l Hl IH Hhd]; constructor; [done|].
  destruct Hhd; constructor. by apply HR.
Qed.

Lemma rowid_asc_created_le m1 m2 : rowid_asc m1 m2 → Message.created_le m1 m2.
Proof. unfold rowid_asc, Message.created_le. lia. Qed.

(** Modelled from the spec: the database engine that answers the query is
    not among the sources.  "Chronological order by creation timestamp is
    the canonical conversation order (ties broken by insertion order /
    identity order)": the rows sorted on [created_at], rows of equal time
    by primary key. *)
Definition oldest_first_store : RecordStore := {|
  order_by_created_at := merge_sort rowid_asc;
  order_by_created_at_perm := merge_sort_Permutation rowid_asc;
  order_by_created_at_sorted l :=
    Sorted_weaken _ _ _ rowid_asc_created_le (Sorted_merge_sort rowid_asc l)
|}.

(** The conversation order in the words of the specification: ascending by
    creation time, and rows of equal time in the order they were inserted.
    A stable insertion sort over the table order. *)
Fixpoint insert_chronological (m : Message.t) (l : list Message.t) : list Message.t :=
  match l with
  | [] => [m]
  | x :: l' =>
      if decide (Message.created_at m ≤ Message.created_at x)
      then m :: x :: l'
      else x :: insert_chronological m l'
  end.

Definition spec_conversation_order (rows : list Message.t) : list Message.t :=
  foldr insert_chronological [] rows.

(** A session instance as [select_related('agent').get(id=...)] loads it:
    its primary key together with the joined agent row. *)
Record SessionInstance := MkSessionInstance {
  pk : Z;
  agent_pk : Z;
  agent : Agent.t
}.

(** [session.messages]: the rows of the message table whose foreign key is
    this session, in table order. *)
Definition session_messages (d : Database) (session_id : Z) : list Message.t :=
  filter (λ m, Message.session m = session_id) (messages d).

(** ** LangChain messages and the context entries *)

Inductive BaseMessage :=
  | SystemMessage (content : string)
  | HumanMessage (content : string)
  | AIMessage (content : string).

#[global] Instance base_message_eq_dec : EqDecision BaseMessage.
Proof. solve_decision. Defined.

(** The two-key dictionary [{'role': ..., 'content': ...}]. *)
Record ContextEntry := MkEntry {
  entry_role : string;
  entry_content : string
}.

#[global] Instance context_entry_eq_dec : EqDecision ContextEntry.
Proof. solve_decision. Defined.

(** An upload as [audio_file.chunks()] yields it: chunk after chunk, or a
    read error part way through. *)
Inductive ChunkRead :=
  | Chunk (data : list byte)
  | ChunkReadFails.

Record UploadedFile := MkUpload { chunks : list ChunkRead }.

(** ** World, environment, and the monad of service calls *)

Inductive Exception :=
  | DoesNotExist
  | IntegrityError
  | LLMError
  | UploadReadError
  | DiskWriteError
  | FileNotFoundError
  | TranscriptionError
  | SpeechError.

#[global] Instance exception_eq_dec : EqDecision Exception.
Proof. solve_decision. Defined.

(** What a call leaves behind besides its result: writes to the message
    table and calls to the remote services, oldest first. *)
Inductive Event :=
  | EvMessageCreated (m : Message.t)
  | EvLLMInvoke (msgs : list BaseMessage)
  | EvTempFileCreated (path : nat)
  | EvTranscribe (path : nat) (audio : list byte)
  | EvTempFileRemoved (path : nat)
  | EvSpeechCreate (text : string).

Record World := MkWorld {
  db : Database;
  tmpdir : gmap nat (list byte);
  clock_reads : nat;
  trace : list Event
}.

(** How the outside answers.  [None] stands for a call that raises. *)
Record Env := MkEnv {
  now : nat → Z;
  llm_invoke : list BaseMessage → option string;
  transcriptions_create : list byte → option string;
  speech_create : string → option (list byte);
  tmp_capacity : nat
}.

Inductive Outcome (A : Type) :=
  | Return (a : A)
  | Raise (e : Exception).
Arguments Return {A} a.
Arguments Raise {A} e.

Definition M (A : Type) : Type := World → World * Outcome A.

Definition ret {A} (a : A) : M A := λ w, (w, Return a).
Definition raise {A} (e : Exception) : M A := λ w, (w, Raise e).

(** An exception leaves the world as the failing call left it: nothing is
    rolled back. *)
Definition bind {A B} (c : M A) (k : A → M B) : M B :=
  λ w, match c w with
       | (w', Return a) => k a w'
       | (w', Raise e) => (w', Raise e)
       end.

Notation "'let!' x ':=' c 'in' k" := (bind c (λ x, k))
  (at level 10, x pattern, c at level 100, k at level 200).
Notation "c1 ';;;' c2" := (bind c1 (λ _, c2))
  (at level 100, c2 at level 200, right associativity).

(** [try: body finally: fin].  The [finally] block runs on both exits; an
    exception of its own replaces the pending result. *)
Definition try_finally {A} (body : M A) (fin : M unit) : M A :=
  λ w, match body w with
       | (w1, r) =>
           match fin w1 with
           | (w2, Return _) => (w2, r)
           | (w2, Raise e) => (w2, Raise e)
           end
       end.

Definition get_world : M World := λ w, (w, Return w).
Definition emit (e : Event) : M unit :=
  λ w, (MkWorld (db w) (tmpdir w) (clock_reads w) (trace w ++ [e]), Return tt).
Definition put_db (d : Database) : M unit :=
  λ w, (MkWorld d (tmpdir w) (clock_reads w) (trace w), Return tt).
Definition put_tmpdir (t : gmap nat (list byte)) : M unit :=
  λ w, (MkWorld (db w) t (clock_reads w) (trace w), Return tt).

(** ** The monad's equations *)

Lemma bind_Return {A B} (c : M A) (k : A → M B) w w' a :
  c w = (w', Return a) → bind c k w = k a w'.
Proof. intros H. unfold bind. by rewrite H. Qed.

Lemma bind_Raise {A B} (c : M A) (k : A → M B) w w' e :
  c w = (w', Raise e) → bind c k w = (w', Raise e).
Proof. intros H. unfold bind. by rewrite H. Qed.

(** ** Services *)

Section Services.
Context {store : RecordStore} (env : Env).

(** [timezone.now()], read when a row with [auto_now_add] is inserted. *)
Definition timezone_now : M Z :=
  λ w, (MkWorld (db w) (tmpdir w) (S (clock_reads w)) (trace w),
        Return (now env (clock_reads w))).

(** [ChatSession.objects.select_related('agent').get(id=session_id)]: an
    inner join of the session row with its agent row. *)
Definition ChatSession_objects_get (session_id : Z) : M SessionInstance :=
  let! w := get_world in
  match sessions (db w) !! session_id with
  | None => raise DoesNotExist
  | Some row =>
      match agents (db w) !! ChatSession.agent row with
      | None => raise DoesNotExist
      | Some a => ret (MkSessionInstance session_id (ChatSession.agent row) a)
      end
  end.

(** [Message.objects.create(session=..., role=..., content=...)].  The row
    gets the next primary key and the current time.  The engine checks the
    foreign key; [save()] runs no field validation, so [role] is stored as
    it is given. *)
Definition Message_objects_create (session_id : Z) (role content : string)
  : M Message.t :=
  let! w := get_world in
  match sessions (db w) !! session_id with
  | None => raise IntegrityError
  | Some _ =>
      let! t := timezone_now in
      let d := db w in
      let m := Message.Build (message_seq d + 1) session_id role content t in
      put_db (MkDatabase (agents d) (sessions d) (messages d ++ [m])
                (agent_seq d) (session_seq d) (message_seq d + 1)) ;;;
      emit (EvMessageCreated m) ;;;
      ret m
  end.

(** [session.messages.order_by('created_at').all()] *)
Definition messages_order_by_created_at (d : Database) (session_id : Z)
  : list Message.t :=
  order_by_created_at (session_messages d session_id).

Definition entry_of (msg : Message.t) : ContextEntry :=
  MkEntry (Message.role msg) (Message.content msg).

(** [ChatService.get_session_context]: a read of the store; the loop
    appends one dictionary per row. *)
Definition get_session_context (d : Database) (session_id : Z)
  : list ContextEntry :=
  let messages := messages_order_by_created_at d session_id in
  fold_left (λ context msg, context ++ [entry_of msg]) messages [].

(** [ChatService.build_langchain_messages] *)
Definition build_langchain_messages (agent_prompt : string)
    (context : list ContextEntry) (user_message : string) : list BaseMessage :=
  let messages := [SystemMessage agent_prompt] in
  let messages :=
    fold_left (λ messages msg,
      if String.eqb (entry_role msg) Message.USER
      then messages ++ [HumanMessage (entry_content msg)]
      else if String.eqb (entry_role msg) Message.AGENT
      then messages ++ [AIMessage (entry_content msg)]
      else messages) context messages in
  messages ++ [HumanMessage user_message].

(** [self.llm.invoke(messages)] followed by [response.content]. *)
Definition llm_call (msgs : list BaseMessage) : M string :=
  emit (EvLLMInvoke msgs) ;;;
  match llm_invoke env msgs with
  | Some completion => ret completion
  | None => raise LLMError
  end.

(** [ChatService.generate_response] *)
Definition generate_response (session_id : Z) (user_message : string)
  : M string :=
  let! session := ChatSession_objects_get session_id in
  let agent := agent session in
  let! w := get_world in
  let context := get_session_context (db w) (pk session) in
  Message_objects_create (pk session) Message.USER user_message ;;;
  let messages :=
    build_langchain_messages (Agent.prompt agent) context user_message in
  let! agent_response := llm_call messages in
  Message_objects_create (pk session) Message.AGENT agent_response ;;;
  ret agent_response.

(** *** app/services/voice_service.py *)

(** [tempfile.NamedTemporaryFile(delete=False, suffix='.wav')]: an empty
    file under a name that is not in use. *)
Definition NamedTemporaryFile : M nat :=
  let! w := get_world in
  let path := fresh (dom (tmpdir w)) in
  put_tmpdir (<[path := []]> (tmpdir w)) ;;;
  emit (EvTempFileCreated path) ;;;
  ret path.

(** [tmp_file.write(chunk)], with room for [tmp_capacity] bytes in the file:
    once the device is full the bytes that fit stay in the file and the
    write fails, at the latest when the [with] block closes the file. *)
Definition tmp_file_write (path : nat) (chunk : list byte) : M unit :=
  let! w := get_world in
  let old := default [] (tmpdir w !! path) in
  if decide (length old + length chunk ≤ tmp_capacity env)%nat
  then put_tmpdir (<[path := old ++ chunk]> (tmpdir w))
  else put_tmpdir (<[path := take (tmp_capacity env) (old ++ chunk)]> (tmpdir w)) ;;;
       raise DiskWriteError.

(** [for chunk in audio_file.chunks(): tmp_file.write(chunk)] *)
Fixpoint write_chunks (path : nat) (cs : list ChunkRead) : M unit :=
  match cs with
  | [] => ret tt
  | Chunk data :: rest => tmp_file_write path data ;;; write_chunks path rest
  | ChunkReadFails :: _ => raise UploadReadError
  end.

(** [os.remove(path)] *)
Definition os_remove (path : nat) : M unit :=
  let! w := get_world in
  put_tmpdir (delete path (tmpdir w)) ;;;
  emit (EvTempFileRemoved path).

(** The body of the [try] block: open the temporary file and send it to
    the transcription endpoint. *)
Definition transcribe_file (tmp_file_path : nat) : M string :=
  let! w := get_world in
  match tmpdir w !! tmp_file_path with
  | None => raise FileNotFoundError
  | Some audio =>
      emit (EvTranscribe tmp_file_path audio) ;;;
      match transcriptions_create env audio with
      | Some transcript => ret transcript
      | None => raise TranscriptionError
      end
  end.

(** The [finally] block. *)
Definition cleanup_temp_file (tmp_file_path : nat) : M unit :=
  let! w := get_world in
  if decide (is_Some (tmpdir w !! tmp_file_path))
  then os_remove tmp_file_path
  else ret tt.

(** [VoiceService.speech_to_text].  The [with] block that fills the
    temporary file comes first; the [try ... finally] starts after it. *)
Definition speech_to_text (audio_file : UploadedFile) : M string :=
  let! tmp_file_path :=
    (let! tmp_file := NamedTemporaryFile in
     write_chunks tmp_file (chunks audio_file) ;;;
     ret tmp_file) in
  try_finally (transcribe_file tmp_file_path) (cleanup_temp_file tmp_file_path).

(** [VoiceService.text_to_speech] *)
Definition text_to_speech (text : string) : M (list byte) :=
  emit (EvSpeechCreate text) ;;;
  match speech_create env text with
  | Some audio => ret audio
  | None => raise SpeechError
  end.

(** [VoiceService.process_voice_message] *)
Definition process_voice_message (session_id : Z) (audio_file : UploadedFile)
  : M (list byte) :=
  let! user_text := speech_to_text audio_file in
  let! agent_text_response := generate_response session_id user_text in
  let! agent_audio_response := text_to_speech agent_text_response in
  ret agent_audio_response.

(** *** The record operations behind the two viewsets *)

Definition Agent_objects_create (name prompt : string) : M Z :=
  let! t_created := timezone_now in
  let! t_updated := timezone_now in
  let! w := get_world in
  let d := db w in
  put_db (MkDatabase
            (<[agent_seq d + 1 := Agent.Build name prompt t_created t_updated]> (agents d))
            (sessions d) (messages d)
            (agent_seq d + 1) (session_seq d) (message_seq d)) ;;;
  ret (agent_seq d + 1).

Definition Agent_update (agent_id : Z) (name prompt : string) : M unit :=
  let! w := get_world in
  let d := db w in
  match agents d !! agent_id with
  | None => raise DoesNotExist
  | Some a =>
      let! t := timezone_now in
      put_db (MkDatabase
                (<[agent_id := Agent.Build name prompt (Agent.created_at a) t]> (agents d))
                (sessions d) (messages d)
                (agent_seq d) (session_seq d) (message_seq d))
  end.

Definition ChatSession_objects_create (agent_id : Z) : M Z :=
  let! w := get_world in
  let d := db w in
  match agents d !! agent_id with
  | None => raise IntegrityError
  | Some _ =>
      let! t := timezone_now in
      put_db (MkDatabase (agents d)
                (<[session_seq d + 1 := ChatSession.Build agent_id t]> (sessions d))
                (messages d)
                (agent_seq d) (session_seq d + 1) (message_seq d)) ;;;
      ret (session_seq d + 1)
  end.

(** [on_delete=models.CASCADE]: the messages of a deleted session go with it. *)
Definition ChatSession_delete (session_id : Z) : M unit :=
  let! w := get_world in
  let d := db w in
  match sessions d !! session_id with
  | None => raise DoesNotExist
  | Some _ =>
      put_db (MkDatabase (agents d) (delete session_id (sessions d))
                (filter (λ m, Message.session m ≠ session_id) (messages d))
                (agent_seq d) (session_seq d) (message_seq d))
  end.

Definition session_of_agent (d : Database) (agent_id session_id : Z) : bool :=
  match sessions d !! session_id with
  | Some row => bool_decide (ChatSession.agent row = agent_id)
  | None => false
  end.

(** ... and the sessions of a deleted agent, with their messages. *)
Definition Agent_delete (agent_id : Z) : M unit :=
  let! w := get_world in
  let d := db w in
  match agents d !! agent_id with
  | None => raise DoesNotExist
  | Some _ =>
      put_db (MkDatabase (delete agent_id (agents d))
                (filter (λ kv, ChatSession.agent kv.2 ≠ agent_id) (sessions d))
                (filter (λ m, session_of_agent d agent_id (Message.session m) = false)
                   (messages d))
                (agent_seq d) (session_seq d) (message_seq d))
  end.

End Services.

(** ** Requests *)

(** What a client can ask for.  The views catch every exception of a service
    call and answer with an error status, so a request maps a world to a
    world whatever the outcome. *)
Inductive Request :=
  | CreateAgent (name prompt : string)
  | UpdateAgent (agent_id : Z) (name prompt : string)
  | DeleteAgent (agent_id : Z)
  | CreateSession (agent_id : Z)
  | DeleteSession (session_id : Z)
  | SendMessage (session_id : Z) (content : string)
  | SendVoiceMessage (session_id : Z) (audio_file : UploadedFile).

Definition handle {store : RecordStore} (env : Env) (r : Request) (w : World) : World :=
  match r with
  | CreateAgent name prompt => (Agent_objects_create env name prompt w).1
  | UpdateAgent a name prompt => (Agent_update env a name prompt w).1
  | DeleteAgent a => (Agent_delete a w).1
  | CreateSession a => (ChatSession_objects_create env a w).1
  | DeleteSession s => (ChatSession_delete s w).1
  | SendMessage s content => (generate_response env s content w).1
  | SendVoiceMessage s audio => (process_voice_message env s audio w).1
  end.

Definition initial_world : World := MkWorld empty_db ∅ 0 [].

(** The worlds the platform can be in: the empty one, and whatever a request
    makes of a reachable one, under any behaviour of the outside. *)
Inductive reachable {store : RecordStore} : World → Prop :=
  | reachable_initial : reachable initial_world
  | reachable_handle env r w : reachable w → reachable (handle env r w).

(** ** app/views/chatsession.py *)

(** What [serializer.is_valid()] finds in the request: the validated data,
    or errors.  Validation is the framework's. *)
Inductive Validated (A : Type) :=
  | Valid (validated_data : A)
  | NotValid.
Arguments Valid {A} validated_data.
Arguments NotValid {A}.

Inductive Payload :=
  | ValidationErrors
  | TurnPayload (user_message agent_response : string)
  | ErrorPayload (error : string)
  | ExceptionPayload (e : Exception)
  | FilePayload (filename content_type : string) (as_attachment : bool)
      (content : list byte).

Record Response := MkResponse {
  status_code : Z;
  payload : Payload
}.

(** [ChatService()] and [VoiceService()] build client objects; [Some e] is a
    constructor that raises [e]. *)
Definition construct (failure : option Exception) : M unit :=
  match failure with
  | Some e => raise e
  | None => ret tt
  end.

(** [ChatSession.objects.get(id=session_id)] *)
Definition ChatSession_objects_get_id (session_id : Z) : M ChatSession.t :=
  let! w := get_world in
  match sessions (db w) !! session_id with
  | None => raise DoesNotExist
  | Some row => ret row
  end.

Section Views.
Context {store : RecordStore} (env : Env).

(** [ChatSessionViewSet.send_message] *)
Definition send_message (init : option Exception)
    (request : Validated (Z * string)) (w : World) : World * Response :=
  match request with
  | NotValid => (w, MkResponse 400 ValidationErrors)
  | Valid (session_id, user_message) =>
      match (construct init ;;;
             generate_response env session_id user_message) w with
      | (w', Return agent_response) =>
          (w', MkResponse 200 (TurnPayload user_message agent_response))
      | (w', Raise DoesNotExist) =>
          (w', MkResponse 404 (ErrorPayload "Chat session not found"))
      | (w', Raise e) => (w', MkResponse 500 (ExceptionPayload e))
      end
  end.

(** [ChatSessionViewSet.send_voice_message] *)
Definition send_voice_message (init : option Exception)
    (request : Validated (Z * UploadedFile)) (w : World) : World * Response :=
  match request with
  | NotValid => (w, MkResponse 400 ValidationErrors)
  | Valid (session_id, audio_file) =>
      match (ChatSession_objects_get_id session_id ;;;
             construct init ;;;
             process_voice_message env session_id audio_file) w with
      | (w', Return agent_audio) =>
          (w', MkResponse 200
                 (FilePayload "agent_response.mp3" "audio/mpeg" true agent_audio))
      | (w', Raise DoesNotExist) =>
          (w', MkResponse 404 (ErrorPayload "Chat session not found"))
      | (w', Raise e) => (w', MkResponse 500 (ExceptionPayload e))
      end
  end.

End Views.

(** ** config/config_manager.py *)

Module Config.

(** A Python [str] is the list of its code points. *)
Abbreviation str := (list N).

Definition text (s : string) : str :=
  Stdlib.Strings.Ascii.N_of_ascii <$> Stdlib.Strings.String.list_ascii_of_string s.

(** The characters [str.strip()] removes: the white space of CPython. *)
Definition isspace (c : N) : bool :=
  ((9 <=? c) && (c <=? 13) || (28 <=? c) && (c <=? 32)
   || (c =? 133) || (c =? 160) || (c =? 5760)
   || (8192 <=? c) && (c <=? 8202)
   || (c =? 8232) || (c =? 8233) || (c =? 8239) || (c =? 8287) || (c =? 12288))%N.

Fixpoint lstrip (s : str) : str :=
  match s with
  | c :: rest => if isspace c then lstrip rest else s
  | [] => []
  end.

Definition rstrip (s : str) : str := reverse (lstrip (reverse s)).

Definition strip (s : str) : str := rstrip (lstrip s).

Definition startswith (s prefix : str) : bool :=
  bool_decide (take (length prefix) s = prefix).

Definition hash : N := 35.
Definition equals : N := 61.

(** [s.split(sep, 1)] for a separator of one character. *)
Fixpoint split_once (sep : N) (s : str) : list str :=
  match s with
  | [] => [[]]
  | c :: rest =>
      if decide (c = sep) then [[]; rest]
      else match split_once sep rest with
           | first :: others => (c :: first) :: others
           | [] => [[c]]
           end
  end.

Inductive Error :=
  | FileNotFoundError (path : string)
  | IsADirectoryError (path : string)
  | PermissionError (path : string)
  | UnicodeDecodeError
  | ValueError
  | KeyError (key : str)
  | TypeError.

Inductive Result (A : Type) :=
  | Ok (a : A)
  | Err (e : Error).
Arguments Ok {A} a.
Arguments Err {A} e.

(** The body of the loop of [_load], for one line of the file. *)
Definition load_line (config : gmap str str) (raw : str) : Result (gmap str str) :=
  let line := strip raw in
  if bool_decide (line = []) || startswith line [hash] then Ok config
  else if negb (bool_decide (equals ∈ line)) then Ok config
  else match split_once equals line with
       | [key; value] => Ok (<[strip key := strip value]> config)
       | _ => Err ValueError
       end.

Fixpoint load_lines (config : gmap str str) (lines : list str)
  : Result (gmap str str) :=
  match lines with
  | [] => Ok config
  | raw :: rest =>
      match load_line config raw with
      | Ok config' => load_lines config' rest
      | Err e => Err e
      end
  end.

(** What is found at a path for which [os.path.exists] is true: a directory,
    a file that [open] refuses to the process, a file in which the decoder
    meets bytes that are not text after having yielded [lines], or a text
    file with the [lines] that iterating over it yields. *)
Inductive Entry :=
  | Directory
  | Forbidden
  | Undecodable (lines : list str)
  | Text (lines : list str).

(** The file system: the paths for which [os.path.exists] is true. *)
Abbreviation Files := (gmap string Entry).

Record t := Build {
  filepath : string;
  config : gmap str str
}.

Definition _load (fs : Files) (filepath : string) : Result (gmap str str) :=
  match fs !! filepath with
  | None => Err (FileNotFoundError filepath)
  | Some Directory => Err (IsADirectoryError filepath)
  | Some Forbidden => Err (PermissionError filepath)
  | Some (Undecodable lines) =>
      match load_lines ∅ lines with
      | Ok _ => Err UnicodeDecodeError
      | Err e => Err e
      end
  | Some (Text lines) => load_lines ∅ lines
  end.

(** [ConfigManager(filepath)]; [None] and the empty string both stand for the
    default path. *)
Definition __init__ (fs : Files) (filepath : option string) : Result t :=
  let filepath :=
    match filepath with
    | Some p => if bool_decide (p = ""%string) then "config/.env"%string else p
    | None => "config/.env"%string
    end in
  match _load fs filepath with
  | Ok config => Ok (Build filepath config)
  | Err e => Err e
  end.

(** [get(key, default)]; [None] is Python's [None]. *)
Definition get (self : t) (key : str) (default : option str) : option str :=
  match config self !! key with
  | Some value => Some value
  | None => default
  end.

Definition __getitem__ (self : t) (key : str) : Result str :=
  match config self !! key with
  | Some value => Ok value
  | None => Err (KeyError key)
  end.

Definition __contains__ (self : t) (key : str) : bool :=
  bool_decide (is_Some (config self !! key)).

End Config.

(** *** The start-up code of chat_service.py *)

(** [os.environ[key] = value]: a value that is not a string, or one with an
    embedded null character, is refused. *)
Definition environ_setitem (environ : gmap Config.str Config.str)
    (key : Config.str) (value : option Config.str)
  : Config.Result (gmap Config.str Config.str) :=
  match value with
  | None => Config.Err Config.TypeError
  | Some v =>
      if bool_decide (0%N ∈ v) then Config.Err Config.ValueError
      else Config.Ok (<[key := v]> environ)
  end.

(** [if not os.environ.get(key): os.environ[key] = config.get(key)] *)
Definition environ_default (config : Config.t) (key : Config.str)
    (environ : gmap Config.str Config.str)
  : Config.Result (gmap Config.str Config.str) :=
  match environ !! key with
  | Some (_ :: _) => Config.Ok environ
  | _ => environ_setitem environ key (Config.get config key None)
  end.

Definition OPENAI_API_KEY : Config.str := Config.text "OPENAI_API_KEY".
Definition GROQ_API_KEY : Config.str := Config.text "GROQ_API_KEY".

(** The module-level statements of chat_service.py, run once at import. *)
Definition chat_service_startup (fs : Config.Files)
    (environ : gmap Config.str Config.str)
  : Config.Result (gmap Config.str Config.str) :=
  match Config.__init__ fs None with
  | Config.Err e => Config.Err e
  | Config.Ok config =>
      match environ_default config OPENAI_API_KEY environ with
      | Config.Err e => Config.Err e
      | Config.Ok environ1 => environ_default config GROQ_API_KEY environ1
      end
  end.

(** * Vocabulary of the properties *)

(** ** Rendering and roles *)

(** What the [if]/[elif] of [build_langchain_messages] makes of one
    history entry; [None] when neither branch is taken. *)
Definition as_langchain (e : ContextEntry) : option BaseMessage :=
  if String.eqb (entry_role e) Message.USER then Some (HumanMessage (entry_content e))
  else if String.eqb (entry_role e) Message.AGENT then Some (AIMessage (entry_content e))
  else None.

Fixpoint rendered_history (context : list ContextEntry) : list BaseMessage :=
  match context with
  | [] => []
  | e :: rest =>
      match as_langchain e with
      | Some b => b :: rendered_history rest
      | None => rendered_history rest
      end
  end.

(** A role that is one of the two constants. *)
Definition valid_role (r : string) : Prop := r = Message.USER ∨ r = Message.AGENT.

#[global] Instance valid_role_dec r : Decision (valid_role r).
Proof. unfold valid_role. apply _. Defined.

(** The LangChain message of an entry whose role is one of the two. *)
Definition render_entry (e : ContextEntry) : BaseMessage :=
  if String.eqb (entry_role e) Message.USER
  then HumanMessage (entry_content e)
  else AIMessage (entry_content e).

Definition render_message (m : Message.t) : BaseMessage :=
  if String.eqb (Message.role m) Message.USER
  then HumanMessage (Message.content m)
  else AIMessage (Message.content m).

(** ** Worlds along one chat turn *)

Section Vocabulary.
Context {store : RecordStore} (env : Env).

(** The row a [create] call inserts in world [w]. *)
Definition new_row (w : World) (session_id : Z) (role content : string) : Message.t :=
  Message.Build (message_seq (db w) + 1) session_id role content
    (now env (clock_reads w)).

Definition world_after_create (w : World) (m : Message.t) : World :=
  MkWorld
    (MkDatabase (agents (db w)) (sessions (db w)) (messages (db w) ++ [m])
       (agent_seq (db w)) (session_seq (db w)) (message_seq (db w) + 1))
    (tmpdir w) (S (clock_reads w)) (trace w ++ [EvMessageCreated m]).

Definition world_after_llm (w : World) (msgs : list BaseMessage) : World :=
  MkWorld (db w) (tmpdir w) (clock_reads w) (trace w ++ [EvLLMInvoke msgs]).

(** The sequence handed to the LLM client in world [w]. *)
Definition rendered_for (w : World) (a : Agent.t) (session_id : Z) (text : string)
  : list BaseMessage :=
  build_langchain_messages (Agent.prompt a)
    (get_session_context (db w) session_id) text.

(** The world at the moment of the LLM call. *)
Definition world_at_llm_call (w : World) (session_id : Z) (text : string) : World :=
  world_after_create w (new_row w session_id Message.USER text).

Definition world_llm_called (w : World) (a : Agent.t) (session_id : Z) (text : string)
  : World :=
  world_after_llm (world_at_llm_call w session_id text)
    (rendered_for w a session_id text).

Definition world_turn_done (w : World) (a : Agent.t) (session_id : Z)
    (text completion : string) : World :=
  let w2 := world_llm_called w a session_id text in
  world_after_create w2 (new_row w2 session_id Message.AGENT completion).

End Vocabulary.

(** ** Footprints and invariants *)

(** [preserves P c]: every run of [c], returning or raising, takes a world
    to one related to it by [P]. *)
Definition preserves {A} (P : relation World) (c : M A) : Prop :=
  ∀ w, P w (c w).1.

(** The events of the speech-to-text step. *)
Definition temp_file_event (e : Event) : Prop :=
  match e with
  | EvTempFileCreated _ | EvTranscribe _ _ | EvTempFileRemoved _ => True
  | _ => False
  end.

(** The footprint of speech-to-text: the store and the clock are not
    touched, and the trace grows by temporary-file events only. *)
Definition stt_footprint (w w' : World) : Prop :=
  db w' = db w ∧ clock_reads w' = clock_reads w
  ∧ ∃ evs, trace w' = trace w ++ evs ∧ Forall temp_file_event evs.

Definition roles_valid (d : Database) : Prop :=
  Forall (λ m, valid_role (Message.role m)) (messages d).

Definition ids_issued (d : Database) : Prop :=
  Forall (λ m, Message.id m ≤ message_seq d) (messages d).

(** Primary keys grow along the table: a row inserted later has the larger
    key. *)
Definition id_lt (m1 m2 : Message.t) : Prop := Message.id m1 < Message.id m2.

Definition ids_increasing (d : Database) : Prop :=
  StronglySorted id_lt (messages d).

Definition wf_db (d : Database) : Prop :=
  roles_valid d ∧ ids_issued d ∧ ids_increasing d.

(** [x] stands before [y] in the list [l]. *)
Definition before {A} (l : list A) (x y : A) : Prop :=
  ∃ l1 l2 l3, l = l1 ++ x :: l2 ++ y :: l3.

(** ** Worked scenarios *)

Module Scenario.

#[local] Existing Instance oldest_first_store.

Definition greeting : list byte := [x52; x49; x46; x46].
Definition reply_audio : list byte := [x49; x44; x33].

(** Every remote service answers; the clock advances with each read. *)
Definition env_up : Env :=
  MkEnv Z.of_nat
    (λ _, Some "Hello! How can I help?"%string)
    (λ _, Some "Hi"%string)
    (λ _, Some reply_audio)
    1024.

Definition env_llm_down : Env :=
  MkEnv Z.of_nat (λ _, None) (λ _, Some "Hi"%string) (λ _, Some reply_audio) 1024.

Definition env_stt_down : Env :=
  MkEnv Z.of_nat (λ _, Some "Hello! How can I help?"%string) (λ _, None)
    (λ _, Some reply_audio) 1024.

Definition env_tts_down : Env :=
  MkEnv Z.of_nat (λ _, Some "Hello! How can I help?"%string)
    (λ _, Some "Hi"%string) (λ _, None) 1024.

(** A clock too coarse to tell two inserts apart. *)
Definition env_coarse_clock : Env :=
  MkEnv (λ _, 0) (λ _, Some "Hello! How can I help?"%string)
    (λ _, Some "Hi"%string) (λ _, Some reply_audio) 1024.

(** Room for two bytes in a temporary file. *)
Definition env_disk_full : Env :=
  MkEnv Z.of_nat (λ _, Some "Hello! How can I help?"%string)
    (λ _, Some "Hi"%string) (λ _, Some reply_audio) 2.

(** One agent with one empty session. *)
Definition w_new_session : World :=
  handle env_up (CreateSession 1)
    (handle env_up (CreateAgent "Test Agent" "You are a helpful assistant.")
       initial_world).

(** The same after the exchange of scenario B. *)
Definition w_one_turn : World :=
  handle env_up (SendMessage 1 "Hi") w_new_session.

Definition upload : UploadedFile := MkUpload [Chunk greeting].
Definition broken_upload : UploadedFile :=
  MkUpload [Chunk greeting; ChunkReadFails].

End Scenario.

(** A session in which the two messages of a turn carry the same creation
    time. *)
Module Tie.

#[local] Existing Instance oldest_first_store.

Definition w_tie : World :=
  handle Scenario.env_coarse_clock (SendMessage 1 "Hi")
    (handle Scenario.env_coarse_clock (CreateSession 1)
       (handle Scenario.env_coarse_clock
          (CreateAgent "Test Agent" "You are a helpful assistant.")
          initial_world)).

End Tie.

(** ** Referential integrity *)

(** Every message belongs to a session of the store, and every session to
    an agent of the store. *)
Definition references_resolve (d : Database) : Prop :=
  Forall (λ m, is_Some (sessions d !! Message.session m)) (messages d)
  ∧ ∀ session_id row, sessions d !! session_id = Some row →
                      is_Some (agents d !! ChatSession.agent row).

Definition is_system (b : BaseMessage) : Prop :=
  match b with SystemMessage _ => True | _ => False end.

#[global] Instance is_system_dec b : Decision (is_system b).
Proof. destruct b; simpl; apply _. Defined.

(** The world after a speech-to-text call that went through: the temporary
    file has come and gone. *)
Definition world_after_stt (w : World) (audio : list byte) : World :=
  let path := fresh (dom (tmpdir w)) in
  MkWorld (db w) (tmpdir w) (clock_reads w)
    (trace w ++ [EvTempFileCreated path; EvTranscribe path audio;
                 EvTempFileRemoved path]).

(** ** Configuration lines *)

Definition space (c : N) : Prop := Config.isspace c = true.

(** A string with no white space at either end. *)
Definition stripped (s : Config.str) : Prop :=
  (∀ c, head s = Some c → Config.isspace c = false)
  ∧ (∀ c, last s = Some c → Config.isspace c = false).

(** The assignment a line of the file stands for, if any. *)
Definition assignment_of (raw : Config.str) : option (Config.str * Config.str) :=
  let line := Config.strip raw in
  if bool_decide (line = []) || Config.startswith line [Config.hash] then None
  else if negb (bool_decide (Config.equals ∈ line)) then None
  else match Config.split_once Config.equals line with
       | [key; value] => Some (Config.strip key, Config.strip value)
       | _ => None
       end.

Definition assigns (key : Config.str) (raw : Config.str) : Prop :=
  ∃ value, assignment_of raw = Some (key, value).

(** The file of the configuration tests, and an environment. *)
Module ConfigScenario.

Definition line (s : string) : Config.str := Config.text s ++ [10%N].

Definition env_lines : list Config.str :=
  [line "DB_HOST=localhost"; line "DB_PORT=5432"; line "# This is a comment";
   line "API_KEY=secret123"; line ""; line "COMPLEX_VALUE=with=equals=signs"].

Definition fs : Config.Files :=
  {[ "config/.env"%string := Config.Text env_lines;
     "config"%string := Config.Directory;
     "config/.env.bin"%string := Config.Undecodable [line "DB_HOST=localhost"] ]}.

Definition keys_lines : list Config.str :=
  [line "OPENAI_API_KEY = sk-file"; line "GROQ_API_KEY=gsk-file";
   line "GROQ_API_KEY=gsk-second"].

Definition fs_keys : Config.Files :=
  {[ "config/.env"%string := Config.Text keys_lines ]}.

Definition environ : gmap Config.str Config.str :=
  {[ OPENAI_API_KEY := Config.text "sk-env"; GROQ_API_KEY := [] ]}.

End ConfigScenario.

(** * Properties *)

Lemma w_new_session_reachable : reachable (store:=oldest_first_store) Scenario.w_new_session.
Proof. unfold Scenario.w_new_session. repeat constructor. Defined.

Lemma w_one_turn_reachable : reachable (store:=oldest_first_store) Scenario.w_one_turn.
Proof. unfold Scenario.w_one_turn. constructor. apply w_new_session_reachable. Defined.

(** ** The two loops of the context builder *)

Lemma fold_left_snoc_map {A B} (f : A → B) (l : list A) (acc : list B) :
  fold_left (λ acc x, acc ++ [f x]) l acc = acc ++ map f l.
Proof.
  revert acc. induction l as [|x l IH]; intros acc; simpl.
  - by rewrite app_nil_r.
  - rewrite IH. by rewrite <- app_assoc.
Qed.

Lemma get_session_context_map {store : RecordStore} d session_id :
  get_session_context d session_id
  = map entry_of (messages_order_by_created_at d session_id).
Proof. unfold get_session_context. by rewrite fold_left_snoc_map. Qed.

Lemma build_loop_rendered context acc :
  fold_left (λ messages msg,
      if String.eqb (entry_role msg) Message.USER
      then messages ++ [HumanMessage (entry_content msg)]
      else if String.eqb (entry_role msg) Message.AGENT
      then messages ++ [AIMessage (entry_content msg)]
      else messages) context acc
  = acc ++ rendered_history context.
Proof.
  revert acc. induction context as [|e rest IH]; intros acc; simpl.
  - by rewrite app_nil_r.
  - rewrite IH. unfold as_langchain.
    destruct (String.eqb (entry_role e) Message.USER);
      [by rewrite <- app_assoc|].
    destruct (String.eqb (entry_role e) Message.AGENT);
      [by rewrite <- app_assoc|done].
Qed.

Lemma build_langchain_messages_eq agent_prompt context user_message :
  build_langchain_messages agent_prompt context user_message
  = SystemMessage agent_prompt :: rendered_history context
      ++ [HumanMessage user_message].
Proof. unfold build_langchain_messages. by rewrite build_loop_rendered. Qed.

Lemma rendered_history_app c1 c2 :
  rendered_history (c1 ++ c2) = rendered_history c1 ++ rendered_history c2.
Proof.
  induction c1 as [|e c1 IH]; [done|].
  simpl. destruct (as_langchain e); simpl; by rewrite IH.
Qed.

Lemma as_langchain_Some e :
  valid_role (entry_role e) → as_langchain e = Some (render_entry e).
Proof.
  unfold as_langchain, render_entry. intros [Hr|Hr]; rewrite Hr; reflexivity.
Qed.

Lemma as_langchain_None e :
  ¬ valid_role (entry_role e) → as_langchain e = None.
Proof.
  unfold as_langchain, valid_role. intros Hr.
  destruct (String.eqb_spec (entry_role e) Message.USER) as [Hu|Hu]; [tauto|].
  destruct (String.eqb_spec (entry_role e) Message.AGENT) as [Ha|Ha]; [tauto|done].
Qed.

Lemma rendered_history_filter context :
  rendered_history context
  = map render_entry (filter (λ e, valid_role (entry_role e)) context).
Proof.
  induction context as [|e rest IH]; [done|].
  simpl. destruct (decide (valid_role (entry_role e))) as [Hv|Hv].
  - rewrite (as_langchain_Some e Hv), filter_cons_True by done. simpl. by rewrite IH.
  - rewrite (as_langchain_None e Hv), filter_cons_False by done. done.
Qed.

Lemma as_langchain_valid m :
  valid_role (Message.role m) → as_langchain (entry_of m) = Some (render_message m).
Proof.
  unfold as_langchain, render_message, entry_of. simpl.
  intros [Hr|Hr]; rewrite Hr; reflexivity.
Qed.

Lemma rendered_history_valid rows :
  Forall (λ m, valid_role (Message.role m)) rows →
  rendered_history (map entry_of rows) = map render_message rows.
Proof.
  induction 1 as [|m rows Hm _ IH]; [done|].
  simpl. rewrite (as_langchain_valid m Hm). by rewrite IH.
Qed.

(** ** One chat turn, step by step *)

Section ChatTurn.
Context {store : RecordStore} (env : Env).

Lemma Message_objects_create_found w session_id role content row :
  sessions (db w) !! session_id = Some row →
  Message_objects_create env session_id role content w
  = (world_after_create w (new_row env w session_id role content),
     Return (new_row env w session_id role content)).
Proof.
  intros Hs. unfold Message_objects_create, bind, get_world. by rewrite Hs.
Qed.

Lemma Message_objects_create_missing w session_id role content :
  sessions (db w) !! session_id = None →
  Message_objects_create env session_id role content w = (w, Raise IntegrityError).
Proof.
  intros Hs. unfold Message_objects_create, bind, get_world. by rewrite Hs.
Qed.

Lemma ChatSession_objects_get_found w session_id row a :
  sessions (db w) !! session_id = Some row →
  agents (db w) !! ChatSession.agent row = Some a →
  ChatSession_objects_get session_id w
  = (w, Return (MkSessionInstance session_id (ChatSession.agent row) a)).
Proof.
  intros Hs Ha. unfold ChatSession_objects_get, bind, get_world.
  by rewrite Hs, Ha.
Qed.

Lemma generate_response_no_session w session_id text :
  sessions (db w) !! session_id = None →
  generate_response env session_id text w = (w, Raise DoesNotExist).
Proof.
  intros Hs. unfold generate_response, bind, ChatSession_objects_get, bind, get_world.
  by rewrite Hs.
Qed.

Lemma generate_response_no_agent w session_id text row :
  sessions (db w) !! session_id = Some row →
  agents (db w) !! ChatSession.agent row = None →
  generate_response env session_id text w = (w, Raise DoesNotExist).
Proof.
  intros Hs Ha. unfold generate_response, bind, ChatSession_objects_get, bind, get_world.
  by rewrite Hs, Ha.
Qed.

Lemma generate_response_found w session_id text row a :
  sessions (db w) !! session_id = Some row →
  agents (db w) !! ChatSession.agent row = Some a →
  generate_response env session_id text w
  = match llm_invoke env (rendered_for w a session_id text) with
    | Some completion =>
        (world_turn_done env w a session_id text completion, Return completion)
    | None => (world_llm_called env w a session_id text, Raise LLMError)
    end.
Proof.
  intros Hs Ha. unfold generate_response.
  rewrite (bind_Return _ _ _ _ _ (ChatSession_objects_get_found _ _ _ _ Hs Ha)).
  simpl. unfold bind at 1. unfold get_world at 1.
  rewrite (bind_Return _ _ _ _ _
             (Message_objects_create_found w session_id Message.USER text row Hs)).
  fold (world_at_llm_call env w session_id text).
  fold (rendered_for w a session_id text).
  unfold llm_call. unfold bind at 1. unfold bind at 1. unfold emit at 1.
  fold (world_after_llm (world_at_llm_call env w session_id text)
          (rendered_for w a session_id text)).
  fold (world_llm_called env w a session_id text).
  destruct (llm_invoke env (rendered_for w a session_id text)) as [completion|];
    [|done].
  unfold ret at 1.
  assert (Hs2 : sessions (db (world_llm_called env w a session_id text)) !! session_id
                = Some row) by done.
  rewrite (bind_Return _ _ _ _ _
             (Message_objects_create_found _ session_id Message.AGENT completion row Hs2)).
  done.
Qed.

(** Every outcome of [generate_response] is one of the three above. *)
Lemma generate_response_cases w session_id text :
  (generate_response env session_id text w = (w, Raise DoesNotExist)
   ∧ (sessions (db w) !! session_id = None
      ∨ ∃ row, sessions (db w) !! session_id = Some row
               ∧ agents (db w) !! ChatSession.agent row = None))
  ∨ ∃ row a,
      sessions (db w) !! session_id = Some row
      ∧ agents (db w) !! ChatSession.agent row = Some a
      ∧ ((llm_invoke env (rendered_for w a session_id text) = None
          ∧ generate_response env session_id text w
            = (world_llm_called env w a session_id text, Raise LLMError))
         ∨ ∃ completion,
             llm_invoke env (rendered_for w a session_id text) = Some completion
             ∧ generate_response env session_id text w
               = (world_turn_done env w a session_id text completion, Return completion)).
Proof.
  destruct (sessions (db w) !! session_id) as [row|] eqn:Hs.
  - destruct (agents (db w) !! ChatSession.agent row) as [a|] eqn:Ha.
    + right. exists row, a. split; [done|]. split; [done|].
      rewrite (generate_response_found w session_id text row a Hs Ha).
      destruct (llm_invoke env (rendered_for w a session_id text)) as [c|]; eauto.
    + left. split; [by eapply generate_response_no_agent|]. right. eauto.
  - left. split; [by apply generate_response_no_session|]. by left.
Qed.

End ChatTurn.

(** ** What a call may change *)

Section Preserves.
Context (P : relation World) `{!Reflexive P, !Transitive P}.

Lemma preserves_ret {A} (a : A) : preserves P (ret a).
Proof. intros w. simpl. reflexivity. Qed.

Lemma preserves_raise {A} e : preserves P (@raise A e).
Proof. intros w. simpl. reflexivity. Qed.

Lemma preserves_get_world : preserves P get_world.
Proof. intros w. simpl. reflexivity. Qed.

Lemma preserves_bind {A B} (c : M A) (k : A → M B) :
  preserves P c → (∀ a, preserves P (k a)) → preserves P (bind c k).
Proof.
  intros Hc Hk w. unfold bind. specialize (Hc w).
  destruct (c w) as [w1 [a|e]]; simpl in *; [|done].
  etransitivity; [exact Hc|apply Hk].
Qed.

Lemma preserves_try_finally {A} (body : M A) (fin : M unit) :
  preserves P body → preserves P fin → preserves P (try_finally body fin).
Proof.
  intros Hb Hf w. unfold try_finally. specialize (Hb w).
  destruct (body w) as [w1 r]. specialize (Hf w1).
  destruct (fin w1) as [w2 [[]|e]]; simpl in *; by etransitivity.
Qed.

End Preserves.

#[local] Instance stt_footprint_refl : Reflexive stt_footprint.
Proof.
  intros w. split; [done|]. split; [done|]. exists []. by rewrite app_nil_r.
Qed.

#[local] Instance stt_footprint_trans : Transitive stt_footprint.
Proof.
  intros w1 w2 w3 (Hd1 & Hc1 & evs1 & Ht1 & He1) (Hd2 & Hc2 & evs2 & Ht2 & He2).
  split; [congruence|]. split; [congruence|].
  exists (evs1 ++ evs2). rewrite Ht2, Ht1, <- app_assoc. split; [done|].
  by apply Forall_app.
Qed.

Lemma put_tmpdir_footprint t : preserves stt_footprint (put_tmpdir t).
Proof.
  intros w. simpl. split; [done|]. split; [done|]. exists []. by rewrite app_nil_r.
Qed.

Lemma emit_footprint e : temp_file_event e → preserves stt_footprint (emit e).
Proof.
  intros He w. simpl. split; [done|]. split; [done|]. exists [e]. split; [done|].
  by constructor.
Qed.

Section VoiceFootprint.
Context {store : RecordStore} (env : Env).

Lemma NamedTemporaryFile_footprint : preserves stt_footprint NamedTemporaryFile.
Proof.
  unfold NamedTemporaryFile.
  apply preserves_bind; [apply _|apply preserves_get_world, _|intros w0].
  apply preserves_bind; [apply _|apply put_tmpdir_footprint|intros _].
  apply preserves_bind; [apply _|by apply emit_footprint|intros _].
  apply preserves_ret, _.
Qed.

Lemma tmp_file_write_footprint path chunk :
  preserves stt_footprint (tmp_file_write env path chunk).
Proof.
  unfold tmp_file_write.
  apply preserves_bind; [apply _|apply preserves_get_world, _|intros w0].
  case_decide; [apply put_tmpdir_footprint|].
  apply preserves_bind; [apply _|apply put_tmpdir_footprint|intros _].
  apply preserves_raise, _.
Qed.

Lemma write_chunks_footprint path cs :
  preserves stt_footprint (write_chunks env path cs).
Proof.
  induction cs as [|[data|] rest IH]; simpl.
  - apply preserves_ret, _.
  - apply preserves_bind; [apply _|apply tmp_file_write_footprint|by intros _].
  - apply preserves_raise, _.
Qed.

Lemma os_remove_footprint path : preserves stt_footprint (os_remove path).
Proof.
  unfold os_remove.
  apply preserves_bind; [apply _|apply preserves_get_world, _|intros w0].
  apply preserves_bind; [apply _|apply put_tmpdir_footprint|intros _].
  by apply emit_footprint.
Qed.

Lemma transcribe_file_footprint path :
  preserves stt_footprint (transcribe_file env path).
Proof.
  unfold transcribe_file.
  apply preserves_bind; [apply _|apply preserves_get_world, _|intros w0].
  destruct (tmpdir w0 !! path) as [audio|]; [|apply preserves_raise, _].
  apply preserves_bind; [apply _|by apply emit_footprint|intros _].
  destruct (transcriptions_create env audio);
    [apply preserves_ret, _|apply preserves_raise, _].
Qed.

Lemma cleanup_temp_file_footprint path :
  preserves stt_footprint (cleanup_temp_file path).
Proof.
  unfold cleanup_temp_file.
  apply preserves_bind; [apply _|apply preserves_get_world, _|intros w0].
  case_decide; [apply os_remove_footprint|apply preserves_ret, _].
Qed.

Lemma speech_to_text_footprint audio_file :
  preserves stt_footprint (speech_to_text env audio_file).
Proof.
  unfold speech_to_text.
  apply preserves_bind; [apply _| |intros path].
  - apply preserves_bind; [apply _|apply NamedTemporaryFile_footprint|intros p].
    apply preserves_bind; [apply _|apply write_chunks_footprint|intros _].
    apply preserves_ret, _.
  - apply preserves_try_finally;
      [apply _|apply transcribe_file_footprint|apply cleanup_temp_file_footprint].
Qed.

End VoiceFootprint.

(** ** Invariants of the reachable worlds *)

Lemma wf_db_empty : wf_db empty_db.
Proof. split; [|split]; constructor. Qed.

Lemma Forall_filter_keep {A} (Q keep : A → Prop) `{!∀ x, Decision (keep x)} l :
  Forall Q l → Forall Q (filter keep l).
Proof.
  rewrite !Forall_forall. intros HQ x Hx.
  apply list_elem_of_filter in Hx as [_ Hx]. by apply HQ.
Qed.

Lemma StronglySorted_filter_keep {A} (R : relation A) (keep : A → Prop)
    `{!∀ x, Decision (keep x)} l :
  StronglySorted R l → StronglySorted R (filter keep l).
Proof.
  induction 1 as [|x l Hl IH Hx]; [constructor|].
  rewrite filter_cons. case_decide; [|done].
  constructor; [done|]. by apply Forall_filter_keep.
Qed.

Lemma wf_db_filter d (keep : Message.t → Prop) `{!∀ m, Decision (keep m)} ags ses aseq sseq :
  wf_db d →
  wf_db (MkDatabase ags ses (filter keep (messages d)) aseq sseq (message_seq d)).
Proof.
  intros (Hr & Hi & Hinc).
  split; [|split]; unfold roles_valid, ids_issued, ids_increasing in *; simpl;
    [by apply Forall_filter_keep..|by apply StronglySorted_filter_keep].
Qed.

Lemma wf_db_same_messages d ags ses aseq sseq :
  wf_db d → wf_db (MkDatabase ags ses (messages d) aseq sseq (message_seq d)).
Proof. intros (Hr & Hi & Hinc). by split. Qed.

Section Invariants.
Context {store : RecordStore}.

Lemma wf_db_after_create env w session_id role content :
  valid_role role →
  wf_db (db w) →
  wf_db (db (world_after_create w (new_row env w session_id role content))).
Proof.
  intros Hrole (Hr & Hi & Hinc).
  split; [|split]; unfold roles_valid, ids_issued, ids_increasing in *; simpl.
  - apply Forall_app. split; [done|]. constructor; [exact Hrole|constructor].
  - apply Forall_app. split.
    + eapply Forall_impl; [exact Hi|]. simpl. intros m Hm. lia.
    + constructor; [simpl; lia|constructor].
  - apply StronglySorted_app. split; [|split; [done|by repeat constructor]].
    intros m1 m2 H1 H2. apply list_elem_of_singleton in H2 as ->.
    rewrite Forall_forall in Hi. specialize (Hi _ H1). unfold id_lt. simpl. lia.
Qed.

Lemma generate_response_wf env session_id text w :
  wf_db (db w) → wf_db (db (generate_response env session_id text w).1).
Proof.
  intros Hwf.
  destruct (generate_response_cases env w session_id text)
    as [[-> _]|(row & a & _ & _ & [[_ ->]|(c & _ & ->)])]; simpl.
  - done.
  - apply (wf_db_after_create env w session_id Message.USER text); [by left|done].
  - apply (wf_db_after_create env
             (world_llm_called env w a session_id text) session_id Message.AGENT c);
      [by right|].
    apply (wf_db_after_create env w session_id Message.USER text); [by left|done].
Qed.

Lemma text_to_speech_db env text w : db (text_to_speech env text w).1 = db w.
Proof.
  unfold text_to_speech, bind, emit. simpl.
  by destruct (speech_create env text).
Qed.

Lemma process_voice_message_wf env session_id audio_file w :
  wf_db (db w) → wf_db (db (process_voice_message env session_id audio_file w).1).
Proof.
  intros Hwf. unfold process_voice_message. unfold bind at 1.
  pose proof (speech_to_text_footprint env audio_file w) as (Hdb & _).
  destruct (speech_to_text env audio_file w) as [w1 [user_text|e]]; simpl in *;
    [|by rewrite Hdb].
  unfold bind at 1.
  pose proof (generate_response_wf env session_id user_text w1) as Hgr.
  rewrite Hdb in Hgr. specialize (Hgr Hwf).
  destruct (generate_response env session_id user_text w1) as [w2 [reply|e]];
    simpl in *; [|done].
  unfold bind.
  pose proof (text_to_speech_db env reply w2) as Htts.
  destruct (text_to_speech env reply w2) as [w3 [audio|e]]; simpl in *;
    by rewrite Htts.
Qed.

Lemma handle_wf env r w : wf_db (db w) → wf_db (db (handle env r w)).
Proof.
  intros Hwf. destruct r; simpl.
  - by apply wf_db_same_messages.
  - unfold Agent_update, bind, get_world.
    destruct (agents (db w) !! agent_id); simpl; [|done].
    by apply wf_db_same_messages.
  - unfold Agent_delete, bind, get_world.
    destruct (agents (db w) !! agent_id); simpl; [|done].
    by apply wf_db_filter.
  - unfold ChatSession_objects_create, bind, get_world.
    destruct (agents (db w) !! agent_id); simpl; [|done].
    by apply wf_db_same_messages.
  - unfold ChatSession_delete, bind, get_world.
    destruct (sessions (db w) !! session_id); simpl; [|done].
    by apply wf_db_filter.
  - by apply generate_response_wf.
  - by apply process_voice_message_wf.
Qed.

Lemma reachable_wf w : reachable w → wf_db (db w).
Proof.
  induction 1 as [|env r w _ IH]; [apply wf_db_empty|by apply handle_wf].
Qed.

End Invariants.

(** ** The context builder's rendering *)

(** C10: [build_langchain_messages] renders the system prompt, then exactly
    the history entries whose role is 'user' or 'agent', in order, then the
    new user turn.  An entry with any other role is left out without an
    error, so with N entries of which K have such a role the result has
    N + 2 - K elements. *)
Theorem build_langchain_messages_skips_other_roles
    (agent_prompt : string) (context : list ContextEntry) (user_message : string) :
  let kept := filter (λ e, valid_role (entry_role e)) context in
  let skipped := filter (λ e, ¬ valid_role (entry_role e)) context in
  build_langchain_messages agent_prompt context user_message
  = SystemMessage agent_prompt :: map render_entry kept ++ [HumanMessage user_message]
  ∧ (length (build_langchain_messages agent_prompt context user_message)
     = length context + 2 - length skipped)%nat
  ∧ (length skipped ≤ length context)%nat.
Proof.
  intros kept skipped.
  assert (Hlen : (length kept + length skipped = length context)%nat).
  { rewrite <- length_app. apply Permutation_length, filter_app_complement. }
  rewrite build_langchain_messages_eq, rendered_history_filter.
  fold kept. split; [done|]. split; [|lia].
  simpl. rewrite length_app, length_map. simpl. lia.
Qed.

(** ** The chat orchestrator *)

Section ChatTurnFacts.
Context {store : RecordStore} (env : Env).

Lemma session_messages_after_create w session_id role content :
  session_messages
    (db (world_after_create w (new_row env w session_id role content))) session_id
  = session_messages (db w) session_id ++ [new_row env w session_id role content].
Proof.
  unfold session_messages. simpl. rewrite filter_app.
  by rewrite filter_cons_True by done.
Qed.

Lemma messages_turn_done w a session_id text completion :
  messages (db (world_turn_done env w a session_id text completion))
  = messages (db w)
    ++ [new_row env w session_id Message.USER text;
        new_row env (world_llm_called env w a session_id text)
          session_id Message.AGENT completion].
Proof. simpl. by rewrite <- app_assoc. Qed.

Lemma session_messages_turn_done w a session_id text completion :
  session_messages (db (world_turn_done env w a session_id text completion)) session_id
  = session_messages (db w) session_id
    ++ [new_row env w session_id Message.USER text;
        new_row env (world_llm_called env w a session_id text)
          session_id Message.AGENT completion].
Proof.
  unfold world_turn_done. rewrite session_messages_after_create.
  change (db (world_llm_called env w a session_id text))
    with (db (world_at_llm_call env w session_id text)).
  unfold world_at_llm_call. rewrite session_messages_after_create.
  by rewrite <- app_assoc.
Qed.

Lemma trace_turn_done w a session_id text completion :
  trace (world_turn_done env w a session_id text completion)
  = trace w
    ++ [EvMessageCreated (new_row env w session_id Message.USER text);
        EvLLMInvoke (rendered_for w a session_id text);
        EvMessageCreated
          (new_row env (world_llm_called env w a session_id text)
             session_id Message.AGENT completion)].
Proof. simpl. by rewrite <- !app_assoc. Qed.

(** The history the builder reads is the session's rows, every one of
    them, sorted by creation time. *)
Lemma history_perm d session_id :
  messages_order_by_created_at d session_id ≡ₚ session_messages d session_id.
Proof. apply order_by_created_at_perm. Qed.

Lemma history_sorted d session_id :
  Sorted Message.created_le (messages_order_by_created_at d session_id).
Proof. apply order_by_created_at_sorted. Qed.

Lemma session_messages_valid d session_id :
  roles_valid d →
  Forall (λ m, valid_role (Message.role m)) (session_messages d session_id).
Proof. intros Hr. by apply Forall_filter_keep. Qed.

Lemma history_valid d session_id :
  roles_valid d →
  Forall (λ m, valid_role (Message.role m))
    (messages_order_by_created_at d session_id).
Proof.
  intros Hr. rewrite history_perm. by apply session_messages_valid.
Qed.

Lemma rendered_for_valid w a session_id text :
  roles_valid (db w) →
  rendered_for w a session_id text
  = SystemMessage (Agent.prompt a)
    :: map render_message (messages_order_by_created_at (db w) session_id)
    ++ [HumanMessage text].
Proof.
  intros Hr. unfold rendered_for.
  rewrite build_langchain_messages_eq, get_session_context_map.
  by rewrite rendered_history_valid by by apply history_valid.
Qed.

Lemma rendered_for_length w a session_id text :
  roles_valid (db w) →
  length (rendered_for w a session_id text)
  = (length (session_messages (db w) session_id) + 2)%nat.
Proof.
  intros Hr. rewrite rendered_for_valid by done.
  simpl. rewrite length_app, length_map. simpl.
  rewrite (Permutation_length (history_perm (db w) session_id)). lia.
Qed.

End ChatTurnFacts.

(** C1: a successful [generate_response] on a session with N prior messages
    leaves N + 2 messages in the session's log: the N prior ones, then a
    'user' message with the given text, then an 'agent' message with the
    completion.  The LLM client is called once, with N + 2 entries: the
    agent's prompt as system entry, the history role for role in ascending
    creation order, and the new text as final human entry. *)
Theorem generate_response_success {store : RecordStore} (env : Env) (w w' : World)
    (session_id : Z) (user_text completion : string) :
  reachable w →
  generate_response env session_id user_text w = (w', Return completion) →
  let prior := session_messages (db w) session_id in
  let history := messages_order_by_created_at (db w) session_id in
  ∃ (a : Agent.t) (user_msg agent_msg : Message.t) (rendered : list BaseMessage),
    (∃ row, sessions (db w) !! session_id = Some row
            ∧ agents (db w) !! ChatSession.agent row = Some a)
    ∧ messages (db w') = messages (db w) ++ [user_msg; agent_msg]
    ∧ session_messages (db w') session_id = prior ++ [user_msg; agent_msg]
    ∧ length (session_messages (db w') session_id) = (length prior + 2)%nat
    ∧ (Message.role user_msg = Message.USER ∧ Message.content user_msg = user_text)
    ∧ (Message.role agent_msg = Message.AGENT ∧ Message.content agent_msg = completion)
    ∧ trace w' = trace w ++ [EvMessageCreated user_msg; EvLLMInvoke rendered;
                             EvMessageCreated agent_msg]
    ∧ llm_invoke env rendered = Some completion
    ∧ rendered = SystemMessage (Agent.prompt a) :: map render_message history
                 ++ [HumanMessage user_text]
    ∧ length rendered = (length prior + 2)%nat
    ∧ history ≡ₚ prior
    ∧ Sorted Message.created_le history
    ∧ Forall (λ m, valid_role (Message.role m)) history.
Proof.
  intros Hreach Hgr prior history.
  destruct (reachable_wf w Hreach) as [Hroles _].
  destruct (generate_response_cases env w session_id user_text)
    as [[Hcase _]|(row & a & Hs & Ha & [[_ Hcase]|(c & Hllm & Hcase)])];
    rewrite Hcase in Hgr; [discriminate Hgr|discriminate Hgr|].
  injection Hgr as <- <-.
  exists a, (new_row env w session_id Message.USER user_text),
    (new_row env (world_llm_called env w a session_id user_text)
       session_id Message.AGENT c),
    (rendered_for w a session_id user_text).
  split; [by exists row|].
  split; [apply messages_turn_done|].
  split; [apply session_messages_turn_done|].
  split; [rewrite session_messages_turn_done, length_app; done|].
  split; [done|]. split; [done|].
  split; [apply trace_turn_done|].
  split; [done|].
  split; [by apply rendered_for_valid|].
  split; [by apply rendered_for_length|].
  split; [apply history_perm|].
  split; [apply history_sorted|].
  by apply history_valid.
Qed.

Lemma generate_response_success_witness :
  let w' := (generate_response (store:=oldest_first_store) Scenario.env_up 1
               "What's 2+2?" Scenario.w_one_turn).1 in
  length (session_messages (db Scenario.w_one_turn) 1) = 2%nat
  ∧ length (session_messages (db w') 1) = 4%nat
  ∧ ∃ rendered, EvLLMInvoke rendered ∈ trace w' ∧ length rendered = 4%nat.
Proof.
  intros w'.
  destruct (generate_response_success (store:=oldest_first_store) Scenario.env_up
              Scenario.w_one_turn w' 1 "What's 2+2?" "Hello! How can I help?")
    as (a & u & g & rendered & _ & _ & _ & Hlen & _ & _ & Htrace & _ & _ & Hr & _).
  - apply w_one_turn_reachable.
  - vm_compute. reflexivity.
  - split; [vm_compute; reflexivity|].
    split; [exact Hlen|].
    exists rendered. split; [|exact Hr].
    rewrite Htrace. rewrite elem_of_app. right.
    apply elem_of_cons. right. apply elem_of_cons. by left.
Defined.

(** C2: when the LLM client call of [generate_response] raises, the session
    holds N + 1 messages afterwards: the N prior ones and the new 'user'
    message.  No 'agent' message is written, and the 'user' message stays. *)
Theorem generate_response_llm_failure {store : RecordStore} (env : Env) (w : World)
    (session_id : Z) (user_text : string) (row : ChatSession.t) (a : Agent.t) :
  sessions (db w) !! session_id = Some row →
  agents (db w) !! ChatSession.agent row = Some a →
  llm_invoke env
    (build_langchain_messages (Agent.prompt a)
       (get_session_context (db w) session_id) user_text) = None →
  let prior := session_messages (db w) session_id in
  ∃ (w' : World) (user_msg : Message.t) (rendered : list BaseMessage),
    generate_response env session_id user_text w = (w', Raise LLMError)
    ∧ messages (db w') = messages (db w) ++ [user_msg]
    ∧ session_messages (db w') session_id = prior ++ [user_msg]
    ∧ length (session_messages (db w') session_id) = (length prior + 1)%nat
    ∧ (Message.role user_msg = Message.USER ∧ Message.content user_msg = user_text)
    ∧ trace w' = trace w ++ [EvMessageCreated user_msg; EvLLMInvoke rendered].
Proof.
  intros Hs Ha Hllm prior.
  exists (world_llm_called env w a session_id user_text),
    (new_row env w session_id Message.USER user_text),
    (rendered_for w a session_id user_text).
  split.
  { rewrite (generate_response_found env w session_id user_text row a Hs Ha).
    unfold rendered_for. by rewrite Hllm. }
  split; [done|].
  assert (Hlog : session_messages (db (world_llm_called env w a session_id user_text))
                   session_id
                 = prior ++ [new_row env w session_id Message.USER user_text])
    by apply session_messages_after_create.
  split; [exact Hlog|].
  split; [rewrite Hlog, length_app; done|].
  split; [done|].
  simpl. by rewrite <- app_assoc.
Qed.

Lemma generate_response_llm_failure_witness :
  ∃ w' user_msg,
    generate_response (store:=oldest_first_store) Scenario.env_llm_down 1 "Hi"
      Scenario.w_one_turn = (w', Raise LLMError)
    ∧ length (session_messages (db w') 1) = 3%nat
    ∧ messages (db w') = messages (db Scenario.w_one_turn) ++ [user_msg]
    ∧ Message.role user_msg = Message.USER.
Proof.
  destruct (generate_response_llm_failure (store:=oldest_first_store)
              Scenario.env_llm_down Scenario.w_one_turn 1 "Hi"
              (ChatSession.Build 1 2)
              (Agent.Build "Test Agent" "You are a helpful assistant." 0 1))
    as (w' & u & rendered & Hgr & Hm & _ & Hlen & [Hrole _] & _).
  - vm_compute. reflexivity.
  - vm_compute. reflexivity.
  - reflexivity.
  - exists w', u. split; [exact Hgr|]. split; [exact Hlen|]. split; [exact Hm|exact Hrole].
Defined.

(** C4: for a session identifier that is not in the store,
    [generate_response] raises [DoesNotExist] (the NotFound condition); the
    world it leaves is the one it found, so no message is created and the
    LLM client is not called. *)
Theorem generate_response_unknown_session {store : RecordStore} (env : Env) (w : World)
    (session_id : Z) (user_text : string) :
  sessions (db w) !! session_id = None →
  ∃ w', generate_response env session_id user_text w = (w', Raise DoesNotExist)
        ∧ w' = w
        ∧ messages (db w') = messages (db w)
        ∧ trace w' = trace w.
Proof.
  intros Hs. exists w. by rewrite generate_response_no_session.
Qed.

Lemma generate_response_unknown_session_witness :
  ∃ w', generate_response (store:=oldest_first_store) Scenario.env_up 99999 "Test"
          Scenario.w_one_turn = (w', Raise DoesNotExist)
        ∧ w' = Scenario.w_one_turn
        ∧ messages (db w') = messages (db Scenario.w_one_turn)
        ∧ trace w' = trace Scenario.w_one_turn.
Proof.
  apply (generate_response_unknown_session (store:=oldest_first_store)).
  vm_compute. reflexivity.
Defined.

(** C8: the empty string is a user text like any other.  It is stored as the
    content of the new 'user' message and it is the content of the final
    human entry handed to the LLM client; [generate_response] has no branch
    that rejects or alters it. *)
Theorem generate_response_empty_text {store : RecordStore} (env : Env) (w : World)
    (session_id : Z) (row : ChatSession.t) (a : Agent.t) (completion : string) :
  sessions (db w) !! session_id = Some row →
  agents (db w) !! ChatSession.agent row = Some a →
  llm_invoke env
    (build_langchain_messages (Agent.prompt a)
       (get_session_context (db w) session_id) "") = Some completion →
  ∃ (w' : World) (user_msg agent_msg : Message.t) (rendered : list BaseMessage),
    generate_response env session_id "" w = (w', Return completion)
    ∧ messages (db w') = messages (db w) ++ [user_msg; agent_msg]
    ∧ Message.role user_msg = Message.USER
    ∧ Message.content user_msg = ""%string
    ∧ trace w' = trace w ++ [EvMessageCreated user_msg; EvLLMInvoke rendered;
                             EvMessageCreated agent_msg]
    ∧ last rendered = Some (HumanMessage "").
Proof.
  intros Hs Ha Hllm.
  exists (world_turn_done env w a session_id "" completion),
    (new_row env w session_id Message.USER ""),
    (new_row env (world_llm_called env w a session_id "") session_id
       Message.AGENT completion),
    (rendered_for w a session_id "").
  split.
  { rewrite (generate_response_found env w session_id "" row a Hs Ha).
    unfold rendered_for. by rewrite Hllm. }
  split; [apply messages_turn_done|].
  split; [done|]. split; [done|].
  split; [apply trace_turn_done|].
  unfold rendered_for. rewrite build_langchain_messages_eq.
  rewrite app_comm_cons. apply last_snoc.
Qed.

Lemma generate_response_empty_text_witness :
  ∃ w' user_msg,
    generate_response (store:=oldest_first_store) Scenario.env_up 1 ""
      Scenario.w_one_turn = (w', Return "Hello! How can I help?"%string)
    ∧ user_msg ∈ messages (db w')
    ∧ Message.content user_msg = ""%string
    ∧ EvLLMInvoke [SystemMessage "You are a helpful assistant.";
                   HumanMessage "Hi"; AIMessage "Hello! How can I help?";
                   HumanMessage ""] ∈ trace w'.
Proof.
  destruct (generate_response_empty_text (store:=oldest_first_store)
              Scenario.env_up Scenario.w_one_turn 1
              (ChatSession.Build 1 2)
              (Agent.Build "Test Agent" "You are a helpful assistant." 0 1)
              "Hello! How can I help?")
    as (w' & u & g & rendered & Hgr & Hm & _ & Hc & Htrace & _).
  - vm_compute. reflexivity.
  - vm_compute. reflexivity.
  - reflexivity.
  - exists w', u. split; [exact Hgr|].
    split; [rewrite Hm; apply elem_of_app; right; by left|].
    split; [exact Hc|].
    assert (Hw : w' = (generate_response (store:=oldest_first_store) Scenario.env_up 1 ""
                         Scenario.w_one_turn).1) by (by rewrite Hgr).
    rewrite Hw. vm_compute.
    apply elem_of_cons. right. apply elem_of_cons. right. apply elem_of_cons. right.
    apply elem_of_cons. right. by left.
Defined.

Lemma new_row_not_stored {store : RecordStore} env w session_id role content :
  ids_issued (db w) → new_row env w session_id role content ∉ messages (db w).
Proof.
  intros Hids Hin. unfold ids_issued in Hids. rewrite Forall_forall in Hids.
  specialize (Hids _ Hin). simpl in Hids. lia.
Qed.

(** C3: [generate_response] reads the history before it stores the new user
    message.  The history handed to the builder is that of the world the
    call started in and does not hold the new message, although the message
    is in the store when the LLM client is called; the rendered sequence
    carries the new text once, as its final entry.  A history read at the
    time of the call would have rendered one entry more. *)
Theorem history_read_before_user_message {store : RecordStore} (env : Env) (w : World)
    (session_id : Z) (user_text : string) (row : ChatSession.t) (a : Agent.t) :
  reachable w →
  sessions (db w) !! session_id = Some row →
  agents (db w) !! ChatSession.agent row = Some a →
  let user_msg := new_row env w session_id Message.USER user_text in
  let history := messages_order_by_created_at (db w) session_id in
  let rendered :=
    build_langchain_messages (Agent.prompt a)
      (get_session_context (db w) session_id) user_text in
  let w' := (generate_response env session_id user_text w).1 in
  (∃ rest, trace w' = trace w ++ EvMessageCreated user_msg :: EvLLMInvoke rendered :: rest
           ∧ Forall (λ e, ∀ msgs, e ≠ EvLLMInvoke msgs) rest)
  ∧ user_msg ∈ session_messages (db w') session_id
  ∧ user_msg ∈ session_messages (db (world_at_llm_call env w session_id user_text)) session_id
  ∧ (user_msg ∉ history)
  ∧ rendered = SystemMessage (Agent.prompt a) :: map render_message history
               ++ [HumanMessage user_text]
  ∧ last rendered = Some (HumanMessage user_text)
  ∧ length rendered = (length history + 2)%nat
  ∧ length (build_langchain_messages (Agent.prompt a)
              (get_session_context (db (world_at_llm_call env w session_id user_text))
                 session_id) user_text)
    = S (length rendered).
Proof.
  intros Hreach Hs Ha user_msg history rendered w'.
  destruct (reachable_wf w Hreach) as (Hroles & Hids & _).
  assert (Hrendered : rendered = SystemMessage (Agent.prompt a)
                        :: map render_message history ++ [HumanMessage user_text])
    by by apply (rendered_for_valid w a session_id user_text).
  assert (Hmid : session_messages (db (world_at_llm_call env w session_id user_text))
                   session_id
                 = session_messages (db w) session_id ++ [user_msg])
    by apply session_messages_after_create.
  split.
  { subst w'. rewrite (generate_response_found env w session_id user_text row a Hs Ha).
    fold rendered. unfold rendered_for. fold rendered.
    destruct (llm_invoke env rendered) as [c|]; simpl.
    - eexists [_]. rewrite <- !app_assoc. split; [reflexivity|].
      constructor; [intros msgs; discriminate|constructor].
    - exists []. rewrite <- !app_assoc. split; [reflexivity|constructor]. }
  split.
  { subst w'. rewrite (generate_response_found env w session_id user_text row a Hs Ha).
    destruct (llm_invoke env (rendered_for w a session_id user_text)) as [c|].
    - simpl fst. rewrite session_messages_turn_done.
      apply elem_of_app. right. by left.
    - simpl fst. change (db (world_llm_called env w a session_id user_text))
        with (db (world_at_llm_call env w session_id user_text)).
      rewrite Hmid. apply elem_of_app. right. by left. }
  split; [rewrite Hmid; apply elem_of_app; right; by left|].
  split.
  { intros Hin. subst history. rewrite history_perm in Hin.
    apply list_elem_of_filter in Hin as [_ Hin].
    by apply (new_row_not_stored env w session_id Message.USER user_text). }
  split; [exact Hrendered|].
  split; [rewrite Hrendered, app_comm_cons; apply last_snoc|].
  split.
  { rewrite Hrendered. simpl. rewrite length_app, length_map. simpl. lia. }
  change (build_langchain_messages (Agent.prompt a)
            (get_session_context (db (world_at_llm_call env w session_id user_text))
               session_id) user_text)
    with (rendered_for (world_at_llm_call env w session_id user_text) a
            session_id user_text).
  rewrite rendered_for_length.
  - rewrite Hmid, length_app.
    change rendered with (rendered_for w a session_id user_text).
    rewrite rendered_for_length by done. simpl. lia.
  - apply (wf_db_after_create env w session_id Message.USER user_text);
      [by left|by apply reachable_wf].
Qed.

Lemma history_read_before_user_message_witness :
  let w' := (generate_response (store:=oldest_first_store) Scenario.env_up 1 "Hi"
               Scenario.w_one_turn).1 in
  ∃ user_msg rendered,
    Message.content user_msg = "Hi"%string
    ∧ user_msg ∈ session_messages (db w') 1
    ∧ (user_msg ∉ messages_order_by_created_at (store:=oldest_first_store)
                    (db Scenario.w_one_turn) 1)
    ∧ EvLLMInvoke rendered ∈ trace w'
    ∧ last rendered = Some (HumanMessage "Hi")
    ∧ length rendered = 4%nat.
Proof.
  intros w'.
  destruct (history_read_before_user_message (store:=oldest_first_store)
              Scenario.env_up Scenario.w_one_turn 1 "Hi"
              (ChatSession.Build 1 2)
              (Agent.Build "Test Agent" "You are a helpful assistant." 0 1))
    as ((rest & Htrace & _) & Hin & _ & Hnotin & _ & Hlast & Hlen & _).
  - apply w_one_turn_reachable.
  - vm_compute. reflexivity.
  - vm_compute. reflexivity.
  - eexists _, _. split; [|split; [exact Hin|split; [exact Hnotin|split;
      [|split; [exact Hlast|exact Hlen]]]]]; [reflexivity|].
    fold w' in Htrace. rewrite Htrace. apply elem_of_app. right.
    apply elem_of_cons. right. by left.
Defined.

(** ** The voice orchestrator *)

(** C5: in [process_voice_message], a failure of the speech-to-text step
    ends the call there: no message is created and neither the LLM client
    nor text-to-speech is called.  When speech-to-text and the chat turn
    succeed and text-to-speech fails, the call fails and the two messages of
    the turn, one 'user' and one 'agent', remain in the store. *)
Theorem process_voice_message_failures {store : RecordStore} (env : Env) (w : World)
    (session_id : Z) (audio_file : UploadedFile) :
  (∀ w1 e,
     speech_to_text env audio_file w = (w1, Raise e) →
     process_voice_message env session_id audio_file w = (w1, Raise e)
     ∧ messages (db w1) = messages (db w)
     ∧ ∃ evs, trace w1 = trace w ++ evs
              ∧ Forall (λ ev, (∀ text, ev ≠ EvSpeechCreate text)
                              ∧ (∀ msgs, ev ≠ EvLLMInvoke msgs)
                              ∧ (∀ m, ev ≠ EvMessageCreated m)) evs)
  ∧ (∀ w1 user_text w2 reply,
       speech_to_text env audio_file w = (w1, Return user_text) →
       generate_response env session_id user_text w1 = (w2, Return reply) →
       speech_create env reply = None →
       ∃ w3 user_msg agent_msg,
         process_voice_message env session_id audio_file w = (w3, Raise SpeechError)
         ∧ messages (db w3) = messages (db w) ++ [user_msg; agent_msg]
         ∧ session_messages (db w3) session_id
           = session_messages (db w) session_id ++ [user_msg; agent_msg]
         ∧ (Message.role user_msg = Message.USER
            ∧ Message.content user_msg = user_text)
         ∧ (Message.role agent_msg = Message.AGENT
            ∧ Message.content agent_msg = reply)).
Proof.
  split.
  - intros w1 e Hstt.
    pose proof (speech_to_text_footprint env audio_file w) as Hfp.
    rewrite Hstt in Hfp. destruct Hfp as (Hdb & _ & evs & Htrace & Hevs). simpl in *.
    split; [unfold process_voice_message; by rewrite (bind_Raise _ _ _ _ _ Hstt)|].
    split; [by rewrite Hdb|].
    exists evs. split; [done|].
    eapply Forall_impl; [exact Hevs|].
    intros ev Hev. by destruct ev.
  - intros w1 user_text w2 reply Hstt Hgr Htts.
    pose proof (speech_to_text_footprint env audio_file w) as Hfp.
    rewrite Hstt in Hfp. destruct Hfp as (Hdb & _). simpl in Hdb.
    destruct (generate_response_cases env w1 session_id user_text)
      as [[Hcase _]|(row & a & Hs & Ha & [[_ Hcase]|(c & Hllm & Hcase)])];
      rewrite Hcase in Hgr; [discriminate Hgr|discriminate Hgr|].
    injection Hgr as <- <-.
    eexists _, (new_row env w1 session_id Message.USER user_text),
      (new_row env (world_llm_called env w1 a session_id user_text)
         session_id Message.AGENT c).
    split.
    { unfold process_voice_message.
      rewrite (bind_Return _ _ _ _ _ Hstt), (bind_Return _ _ _ _ _ Hcase).
      unfold text_to_speech, bind, emit. rewrite Htts. reflexivity. }
    cbn [db]. rewrite messages_turn_done, session_messages_turn_done.
    unfold session_messages. by rewrite Hdb.
Qed.

Lemma process_voice_message_failures_witness :
  (∃ w1 e,
     process_voice_message (store:=oldest_first_store) Scenario.env_stt_down 1
       Scenario.upload Scenario.w_one_turn = (w1, Raise e)
     ∧ messages (db w1) = messages (db Scenario.w_one_turn))
  ∧ (∃ w3 user_msg agent_msg,
       process_voice_message (store:=oldest_first_store) Scenario.env_tts_down 1
         Scenario.upload Scenario.w_one_turn = (w3, Raise SpeechError)
       ∧ messages (db w3) = messages (db Scenario.w_one_turn) ++ [user_msg; agent_msg]).
Proof.
  split.
  - destruct (process_voice_message_failures (store:=oldest_first_store)
                Scenario.env_stt_down Scenario.w_one_turn 1 Scenario.upload)
      as [Hstt _].
    edestruct Hstt as (Hp & Hm & _); [vm_compute; reflexivity|].
    eexists _, _. split; [exact Hp|exact Hm].
  - destruct (process_voice_message_failures (store:=oldest_first_store)
                Scenario.env_tts_down Scenario.w_one_turn 1 Scenario.upload)
      as [_ Htts].
    edestruct Htts as (w3 & u & g & Hp & Hm & _);
      [vm_compute; reflexivity|vm_compute; reflexivity|reflexivity|].
    exists w3, u, g. split; [exact Hp|exact Hm].
Defined.

(** ** The order of the context *)

#[global] Instance created_le_trans : Transitive Message.created_le.
Proof. intros m1 m2 m3. unfold Message.created_le. lia. Qed.

Lemma insert_chronological_perm m l : insert_chronological m l ≡ₚ m :: l.
Proof.
  induction l as [|x l IH]; simpl; [done|].
  case_decide; [done|]. rewrite IH. apply Permutation_swap.
Qed.

Lemma insert_chronological_hd m x l :
  Message.created_le x m → HdRel Message.created_le x l →
  HdRel Message.created_le x (insert_chronological m l).
Proof.
  intros Hxm Hhd. destruct l as [|y l]; simpl; [by constructor|].
  case_decide; constructor; [done|]. by inversion Hhd.
Qed.

Lemma insert_chronological_sorted m l :
  Sorted Message.created_le l → Sorted Message.created_le (insert_chronological m l).
Proof.
  induction 1 as [|x l Hl IH Hhd]; simpl.
  - by repeat constructor.
  - case_decide as Hle.
    + constructor; [by constructor|]. by constructor.
    + constructor; [done|]. apply insert_chronological_hd; [|done].
      unfold Message.created_le. lia.
Qed.

Lemma spec_conversation_order_perm rows : spec_conversation_order rows ≡ₚ rows.
Proof.
  induction rows as [|m rows IH]; simpl; [done|].
  by rewrite insert_chronological_perm, IH.
Qed.

Lemma spec_conversation_order_sorted rows :
  Sorted Message.created_le (spec_conversation_order rows).
Proof.
  induction rows as [|m rows IH]; simpl; [constructor|].
  by apply insert_chronological_sorted.
Qed.

(** *** A store that breaks ties by primary key *)

#[global] Instance rowid_asc_trans : Transitive rowid_asc.
Proof. intros m1 m2 m3. unfold rowid_asc. lia. Qed.

Lemma insert_chronological_rowid_hd m x l :
  rowid_asc x m → HdRel rowid_asc x l →
  HdRel rowid_asc x (insert_chronological m l).
Proof.
  intros Hxm Hhd. destruct l as [|y l]; simpl; [by constructor|].
  case_decide; constructor; [done|]. by inversion Hhd.
Qed.

(** Inserting a row that is older in the table than all the rows it is
    inserted into keeps them sorted by time and then by key. *)
Lemma insert_chronological_rowid m l :
  Forall (id_lt m) l → Sorted rowid_asc l →
  Sorted rowid_asc (insert_chronological m l).
Proof.
  intros Hm Hl. induction Hl as [|x l Hl IH Hhd]; simpl.
  - by repeat constructor.
  - apply Forall_cons in Hm as [Hmx Hm]. case_decide as Hle.
    + constructor; [by constructor|]. constructor.
      unfold rowid_asc, id_lt in *. lia.
    + constructor; [by apply IH|].
      apply insert_chronological_rowid_hd; [|done].
      unfold rowid_asc. lia.
Qed.

Lemma spec_conversation_order_rowid rows :
  StronglySorted id_lt rows → Sorted rowid_asc (spec_conversation_order rows).
Proof.
  induction 1 as [|m rows Hrows IH Hm]; simpl; [constructor|].
  apply insert_chronological_rowid; [|done].
  by rewrite spec_conversation_order_perm.
Qed.

Lemma id_lt_inj rows m1 m2 :
  StronglySorted id_lt rows → m1 ∈ rows → m2 ∈ rows →
  Message.id m1 = Message.id m2 → m1 = m2.
Proof.
  induction 1 as [|m rows Hrows IH Hm]; intros H1 H2 Hid.
  - by apply elem_of_nil in H1.
  - rewrite Forall_forall in Hm. unfold id_lt in Hm.
    apply elem_of_cons in H1 as [->|H1]; apply elem_of_cons in H2 as [->|H2].
    + done.
    + specialize (Hm _ H2). lia.
    + specialize (Hm _ H1). lia.
    + by apply IH.
Qed.

(** With such a store the rows come out in the conversation order of the
    specification, ties included. *)
Lemma oldest_first_store_conversation_order d session_id :
  ids_increasing d →
  messages_order_by_created_at (store:=oldest_first_store) d session_id
  = spec_conversation_order (session_messages d session_id).
Proof.
  intros Hinc.
  assert (Hrows : StronglySorted id_lt (session_messages d session_id))
    by by apply StronglySorted_filter_keep.
  apply (Sorted_unique_strong rowid_asc).
  - intros m1 m2 H1 H2 H12 H21.
    apply (id_lt_inj (session_messages d session_id)); [done| | |].
    + by rewrite (history_perm (store:=oldest_first_store)) in H1.
    + by rewrite spec_conversation_order_perm in H2.
    + unfold rowid_asc in *. lia.
  - apply Sorted_merge_sort, _.
  - by apply spec_conversation_order_rowid.
  - by rewrite (history_perm (store:=oldest_first_store)), spec_conversation_order_perm.
Qed.

(** *** Positions in a list *)

Lemma StronglySorted_before {A} (R : relation A) l x y :
  StronglySorted R l → before l x y → R x y.
Proof.
  intros Hl (l1 & l2 & l3 & ->).
  apply StronglySorted_app in Hl as (_ & _ & Hl).
  apply StronglySorted_cons in Hl as [Hx _].
  rewrite Forall_forall in Hx. apply Hx.
  rewrite elem_of_app. right. by left.
Qed.

Lemma before_NoDup {A} (l : list A) x y : NoDup l → before l x y → x ≠ y.
Proof.
  intros Hl (l1 & l2 & l3 & ->) ->.
  apply NoDup_app in Hl as (_ & _ & Hl). apply NoDup_cons in Hl as [Hy _].
  apply Hy. rewrite elem_of_app. right. by left.
Qed.

Lemma before_cons {A} (l : list A) m x y : before l x y → before (m :: l) x y.
Proof. intros (l1 & l2 & l3 & ->). by exists (m :: l1), l2, l3. Qed.

Lemma ids_increasing_NoDup rows : StronglySorted id_lt rows → NoDup rows.
Proof.
  induction 1 as [|m rows Hrows IH Hm]; constructor; [|done].
  intros Hin. rewrite Forall_forall in Hm. specialize (Hm _ Hin).
  unfold id_lt in Hm. lia.
Qed.

(** Along a table with growing keys, the row of the smaller key was inserted
    first. *)
Lemma ids_increasing_before rows m1 m2 :
  StronglySorted id_lt rows → m1 ∈ rows → m2 ∈ rows →
  Message.id m1 < Message.id m2 → before rows m1 m2.
Proof.
  induction 1 as [|m rows Hrows IH Hm]; intros H1 H2 Hlt.
  - by apply elem_of_nil in H1.
  - rewrite Forall_forall in Hm. unfold id_lt in Hm.
    apply elem_of_cons in H1 as [->|H1]; apply elem_of_cons in H2 as [->|H2].
    + lia.
    + apply list_elem_of_split in H2 as (la & lb & ->). by exists [], la, lb.
    + specialize (Hm _ H1). lia.
    + by apply before_cons, IH.
Qed.

(** C6: in every world the platform can reach, [get_session_context] lists
    each message of the session once, in non-decreasing order of creation
    time, and messages of equal creation time in the order in which they were
    inserted, which is the order of their primary keys: the output is the
    conversation order of the specification.  It depends on nothing but the
    session's rows, so a second call on an unchanged store returns the same
    list. *)
Theorem get_session_context_insertion_order (w : World) (session_id : Z) :
  reachable (store:=oldest_first_store) w →
  let d := db w in
  let rows := messages_order_by_created_at (store:=oldest_first_store) d session_id in
  get_session_context (store:=oldest_first_store) d session_id = map entry_of rows
  ∧ rows ≡ₚ session_messages d session_id
  ∧ (∀ m1 m2, before rows m1 m2 →
       Message.created_at m1 ≤ Message.created_at m2
       ∧ (Message.created_at m1 = Message.created_at m2 →
          Message.id m1 < Message.id m2 ∧ before (messages d) m1 m2))
  ∧ rows = spec_conversation_order (session_messages d session_id)
  ∧ (∀ d', session_messages d' session_id = session_messages d session_id →
           get_session_context (store:=oldest_first_store) d' session_id
           = get_session_context (store:=oldest_first_store) d session_id).
Proof.
  intros Hreach d rows.
  destruct (reachable_wf (store:=oldest_first_store) w Hreach) as (_ & _ & Hinc).
  fold d in Hinc.
  assert (Hperm : rows ≡ₚ session_messages d session_id)
    by apply (history_perm (store:=oldest_first_store)).
  split; [apply get_session_context_map|].
  split; [done|].
  split.
  { intros m1 m2 Hbefore.
    assert (Hsorted : StronglySorted rowid_asc rows).
    { apply Sorted_StronglySorted; [apply _|]. apply Sorted_merge_sort, _. }
    pose proof (StronglySorted_before _ _ _ _ Hsorted Hbefore) as H12.
    split; [unfold rowid_asc in H12; lia|]. intros Htie.
    assert (Hkeys : StronglySorted id_lt (session_messages d session_id))
      by by apply StronglySorted_filter_keep.
    assert (H1 : m1 ∈ session_messages d session_id).
    { rewrite <- Hperm. destruct Hbefore as (l1 & l2 & l3 & ->).
      rewrite elem_of_app. right. by left. }
    assert (H2 : m2 ∈ session_messages d session_id).
    { rewrite <- Hperm. destruct Hbefore as (l1 & l2 & l3 & ->).
      rewrite elem_of_app. right. right. rewrite elem_of_app. right. by left. }
    assert (Hne : m1 ≠ m2).
    { apply (before_NoDup rows); [|done].
      rewrite Hperm. by apply ids_increasing_NoDup. }
    assert (Hid : Message.id m1 < Message.id m2).
    { destruct (decide (Message.id m1 = Message.id m2)) as [Heq|Hneq].
      - by destruct Hne; apply (id_lt_inj (session_messages d session_id)).
      - unfold rowid_asc in H12. lia. }
    split; [done|].
    apply ids_increasing_before; [done| | |done].
    - by apply list_elem_of_filter in H1 as [_ H1].
    - by apply list_elem_of_filter in H2 as [_ H2]. }
  split; [by apply oldest_first_store_conversation_order|].
  intros d' Hrows. unfold get_session_context, messages_order_by_created_at.
  by rewrite Hrows.
Qed.

Lemma get_session_context_insertion_order_witness :
  session_messages (db Tie.w_tie) 1
  = [Message.Build 1 1 "user" "Hi" 0;
     Message.Build 2 1 "agent" "Hello! How can I help?" 0]
  ∧ get_session_context (store:=oldest_first_store) (db Tie.w_tie) 1
    = [MkEntry "user" "Hi"; MkEntry "agent" "Hello! How can I help?"].
Proof.
  pose proof (get_session_context_insertion_order Tie.w_tie 1) as Hctx.
  cbv zeta in Hctx.
  destruct Hctx as (Hctx & _ & _ & Hrows & _);
    [unfold Tie.w_tie; repeat constructor|].
  split; [vm_compute; reflexivity|].
  rewrite Hctx, Hrows. vm_compute. reflexivity.
Defined.

(** ** The temporary file of speech-to-text *)

(** Once the temporary file is filled, the [try ... finally] removes it
    whether the transcription returns or raises. *)
Lemma transcription_removes_temp_file env path w :
  tmpdir (try_finally (transcribe_file env path) (cleanup_temp_file path) w).1 !! path
  = None.
Proof.
  unfold try_finally, transcribe_file, bind, get_world.
  destruct (tmpdir w !! path) as [audio|] eqn:Hfile; simpl.
  - destruct (transcriptions_create env audio); simpl;
      unfold cleanup_temp_file, bind, get_world; simpl;
      (case_decide as Hex; [simpl; apply lookup_delete_eq|]);
      exfalso; apply Hex; by rewrite Hfile.
  - unfold cleanup_temp_file, bind, get_world; simpl.
    case_decide as Hex; [|done].
    rewrite Hfile in Hex. by destruct Hex.
Qed.

(** The copy loop touches no path but its own, keeps its file in place, and
    ends in one of three ways. *)
Lemma write_chunks_tmpdir env path cs w :
  (∀ q, q ≠ path → tmpdir (write_chunks env path cs w).1 !! q = tmpdir w !! q)
  ∧ (is_Some (tmpdir w !! path) →
     is_Some (tmpdir (write_chunks env path cs w).1 !! path))
  ∧ ((write_chunks env path cs w).2 = Return tt
     ∨ (write_chunks env path cs w).2 = Raise UploadReadError
     ∨ (write_chunks env path cs w).2 = Raise DiskWriteError).
Proof.
  revert w. induction cs as [|[data|] rest IH]; intros w; simpl.
  - auto.
  - unfold bind at 1 3 5. unfold tmp_file_write, bind, get_world.
    case_decide as Hroom; simpl.
    2:{ split; [intros q Hq; by rewrite lookup_insert_ne|].
        split; [intros _; rewrite lookup_insert_eq; eauto|auto]. }
    set (w1 := MkWorld _ _ _ _).
    destruct (IH w1) as (Hother & Hkeep & Hend).
    split; [|split; [|exact Hend]].
    + intros q Hq. rewrite (Hother q Hq). subst w1. simpl.
      by rewrite lookup_insert_ne.
    + intros _. apply Hkeep. subst w1. simpl. rewrite lookup_insert_eq. eauto.
  - auto.
Qed.

(** What becomes of the temporary file, for every upload: if the copy loop
    raises, the file it was filling is still there when [speech_to_text]
    exits; on every other exit the temporary directory is as it was. *)
Lemma speech_to_text_temp_file env audio_file w :
  let path := fresh (dom (tmpdir w)) in
  tmpdir w !! path = None
  ∧ match (speech_to_text env audio_file w).2 with
    | Raise UploadReadError | Raise DiskWriteError =>
        is_Some (tmpdir (speech_to_text env audio_file w).1 !! path)
    | _ => tmpdir (speech_to_text env audio_file w).1 = tmpdir w
    end.
Proof.
  intros path.
  assert (Hfresh : tmpdir w !! path = None)
    by (apply not_elem_of_dom; subst path; apply is_fresh).
  split; [exact Hfresh|].
  unfold speech_to_text. unfold bind at 1 3 5. unfold bind at 1 4 7.
  unfold NamedTemporaryFile, bind, get_world, put_tmpdir, emit, ret. simpl.
  fold path. set (w0 := MkWorld _ _ _ _).
  destruct (write_chunks_tmpdir env path (chunks audio_file) w0)
    as (Hother & Hkeep & Hend).
  assert (Hfile : is_Some (tmpdir (write_chunks env path (chunks audio_file) w0).1
                           !! path)).
  { apply Hkeep. subst w0. simpl. rewrite lookup_insert_eq. eauto. }
  destruct (write_chunks env path (chunks audio_file) w0) as [w1 r]. simpl in *.
  destruct Hend as [->|[->| ->]]; [|exact Hfile|exact Hfile].
  assert (Hrestored : delete path (tmpdir w1) = tmpdir w).
  { apply map_eq. intros q. destruct (decide (q = path)) as [->|Hq].
    - by rewrite lookup_delete_eq.
    - rewrite lookup_delete_ne by done. rewrite (Hother q Hq).
      subst w0. simpl. by rewrite lookup_insert_ne. }
  destruct Hfile as [audio Haudio].
  unfold try_finally, transcribe_file, bind, get_world. rewrite Haudio. simpl.
  destruct (transcriptions_create env audio); simpl;
    unfold cleanup_temp_file, bind, get_world; simpl;
    (case_decide as Hex; [simpl; exact Hrestored|]);
    exfalso; apply Hex; rewrite Haudio; eauto.
Qed.

(** C7 does not hold of the code on two exit paths: the loop that copies the
    upload into the temporary file runs before the [try], so when reading a
    chunk or writing it raises, the [finally] block is never entered and the
    file, created with [delete=False], stays in the temporary directory. *)
Theorem speech_to_text_leaves_temp_file :
  (let res := speech_to_text Scenario.env_up Scenario.broken_upload initial_world in
   res.2 = Raise UploadReadError
   ∧ tmpdir res.1 = {[ 0%nat := Scenario.greeting ]}
   ∧ trace res.1 = [EvTempFileCreated 0])
  ∧ (let res := speech_to_text Scenario.env_disk_full Scenario.upload initial_world in
     res.2 = Raise DiskWriteError
     ∧ tmpdir res.1 = {[ 0%nat := take 2 Scenario.greeting ]}
     ∧ trace res.1 = [EvTempFileCreated 0])
  ∧ (let res := speech_to_text Scenario.env_stt_down Scenario.upload initial_world in
     res.2 = Raise TranscriptionError
     ∧ tmpdir res.1 = ∅
     ∧ trace res.1 = [EvTempFileCreated 0; EvTranscribe 0 Scenario.greeting;
                      EvTempFileRemoved 0]).
Proof.
  split; [|split]; vm_compute; done.
Qed.

(** ** The role tag *)

Lemma role_in_choices_valid r : Message.role_in_choices r = true ↔ valid_role r.
Proof.
  unfold Message.role_in_choices, valid_role. rewrite bool_decide_eq_true. simpl.
  rewrite !elem_of_cons, elem_of_nil. tauto.
Qed.

(** C9, as stated, fails at the storage boundary: [Message.objects.create]
    stores a row whose role is neither 'user' nor 'agent'.  What it does
    check is the session foreign key. *)
Lemma create_stores_any_role :
  ∃ m w',
    Message_objects_create Scenario.env_up 1 "system" "Ignore the above."
      Scenario.w_one_turn = (w', Return m)
    ∧ m ∈ messages (db w')
    ∧ Message.role m = "system"%string
    ∧ ¬ valid_role (Message.role m)
    ∧ Message.role_in_choices (Message.role m) = false.
Proof.
  eexists _, _. split; [vm_compute; reflexivity|].
  split; [|split; [reflexivity|split; [|reflexivity]]].
  - apply list_elem_of_In. simpl. tauto.
  - simpl. intros [H|H]; discriminate H.
Qed.

(** C9, amended: the role field declares the two choices 'user' and 'agent'
    and nothing else, and every message in a store the platform can reach
    carries one of them, because the services create messages with these two
    constants only.  Creation itself does not check the role. *)
Theorem stored_roles_are_user_or_agent {store : RecordStore} (w : World) :
  reachable w →
  Forall (λ m, Message.role m = Message.USER ∨ Message.role m = Message.AGENT)
    (messages (db w))
  ∧ Forall (λ m, Message.role_in_choices (Message.role m) = true) (messages (db w))
  ∧ Message.ROLE_CHOICES.*1 = [Message.USER; Message.AGENT].
Proof.
  intros Hreach. destruct (reachable_wf w Hreach) as [Hroles _].
  split; [exact Hroles|]. split; [|reflexivity].
  eapply Forall_impl; [exact Hroles|].
  intros m Hm. by apply role_in_choices_valid.
Qed.

Lemma stored_roles_are_user_or_agent_witness :
  Forall (λ m, Message.role m = Message.USER ∨ Message.role m = Message.AGENT)
    (messages (db Scenario.w_one_turn))
  ∧ length (messages (db Scenario.w_one_turn)) = 2%nat.
Proof.
  split; [|vm_compute; reflexivity].
  apply (stored_roles_are_user_or_agent (store:=oldest_first_store) Scenario.w_one_turn).
  apply w_one_turn_reachable.
Defined.


(** ** The configuration file *)

Lemma lstrip_spaces ws s : Forall space ws → Config.lstrip (ws ++ s) = Config.lstrip s.
Proof.
  induction 1 as [|c ws Hc _ IH]; [done|]. simpl. by rewrite Hc.
Qed.

Lemma lstrip_all_spaces ws : Forall space ws → Config.lstrip ws = [].
Proof.
  intros Hws. rewrite <- (app_nil_r ws). by rewrite lstrip_spaces.
Qed.

Lemma lstrip_app_nonspace a c b :
  Config.isspace c = false →
  Config.lstrip (a ++ c :: b) = Config.lstrip a ++ c :: b.
Proof.
  intros Hc. induction a as [|x a IH]; simpl.
  - by rewrite Hc.
  - by destruct (Config.isspace x).
Qed.

Lemma lstrip_head s c : head (Config.lstrip s) = Some c → Config.isspace c = false.
Proof.
  induction s as [|x s IH]; simpl; [done|].
  destruct (Config.isspace x) eqn:Hx; [done|]. simpl. by intros [= <-].
Qed.

Lemma lstrip_suffix s : ∃ ws, s = ws ++ Config.lstrip s ∧ Forall space ws.
Proof.
  induction s as [|x s (ws & Hs & Hws)]; simpl.
  - by exists [].
  - destruct (Config.isspace x) eqn:Hx.
    + exists (x :: ws). split; [simpl; by f_equal|by constructor].
    + by exists [].
Qed.

Lemma reverse_app_cons {A} (a : list A) c b :
  reverse (a ++ c :: b) = reverse b ++ c :: reverse a.
Proof. by rewrite reverse_app, reverse_cons, <- app_assoc. Qed.

Lemma rstrip_app_nonspace a c b :
  Config.isspace c = false →
  Config.rstrip (a ++ c :: b) = a ++ c :: Config.rstrip b.
Proof.
  intros Hc. unfold Config.rstrip.
  rewrite reverse_app_cons, lstrip_app_nonspace by done.
  by rewrite reverse_app_cons, reverse_involutive.
Qed.

Lemma rstrip_all_spaces ws : Forall space ws → Config.rstrip ws = [].
Proof.
  intros Hws. unfold Config.rstrip. rewrite lstrip_all_spaces; [done|].
  by apply Forall_reverse.
Qed.

Lemma rstrip_last s c : last (Config.rstrip s) = Some c → Config.isspace c = false.
Proof.
  unfold Config.rstrip. rewrite last_reverse. apply lstrip_head.
Qed.

Lemma rstrip_prefix s : ∃ ws, s = Config.rstrip s ++ ws ∧ Forall space ws.
Proof.
  destruct (lstrip_suffix (reverse s)) as (ws & Hs & Hws).
  exists (reverse ws). split; [|by apply Forall_reverse].
  unfold Config.rstrip. rewrite <- reverse_app, <- Hs. by rewrite reverse_involutive.
Qed.

Lemma strip_app_nonspace a c b :
  Config.isspace c = false →
  Config.strip (a ++ c :: b) = Config.lstrip a ++ c :: Config.rstrip b.
Proof.
  intros Hc. unfold Config.strip.
  by rewrite lstrip_app_nonspace, rstrip_app_nonspace.
Qed.

Lemma strip_all_spaces ws : Forall space ws → Config.strip ws = [].
Proof. intros Hws. unfold Config.strip. by rewrite lstrip_all_spaces. Qed.

(** Every string is white space only, or white space up to a first
    character that is not. *)
Lemma first_nonspace s :
  Forall space s
  ∨ ∃ ws c rest, s = ws ++ c :: rest ∧ Forall space ws ∧ Config.isspace c = false.
Proof.
  induction s as [|x s [IH|(ws & c & rest & -> & Hws & Hc)]].
  - left. constructor.
  - destruct (Config.isspace x) eqn:Hx.
    + left. by constructor.
    + right. by exists [], x, s.
  - destruct (Config.isspace x) eqn:Hx.
    + right. exists (x :: ws), c, rest. repeat split; [|done]. by constructor.
    + right. by exists [], x, (ws ++ c :: rest).
Qed.

Lemma strip_elem_of s c : c ∈ Config.strip s → c ∈ s.
Proof.
  unfold Config.strip. intros Hc.
  destruct (rstrip_prefix (Config.lstrip s)) as (ws2 & H2 & _).
  destruct (lstrip_suffix s) as (ws1 & H1 & _).
  rewrite H1, H2. rewrite !elem_of_app. auto.
Qed.

Lemma strip_stripped s : stripped (Config.strip s).
Proof.
  destruct (first_nonspace s) as [Hs|(ws & c & rest & -> & Hws & Hc)].
  - rewrite strip_all_spaces by done. by split.
  - rewrite strip_app_nonspace, lstrip_all_spaces by done. simpl. split.
    + by intros x [= <-].
    + intros x. destruct (Config.rstrip rest) as [|y l] eqn:Hr using rev_ind.
      * by intros [= <-].
      * rewrite app_comm_cons, last_snoc. intros [= <-].
        apply (rstrip_last rest). by rewrite Hr, last_snoc.
Qed.

Lemma rstrip_padded t ws :
  (∀ d, last t = Some d → Config.isspace d = false) → Forall space ws →
  Config.rstrip (t ++ ws) = t.
Proof.
  intros Hlast Hws. destruct t as [|d l _] using rev_ind.
  - by apply rstrip_all_spaces.
  - rewrite <- app_assoc. simpl.
    rewrite rstrip_app_nonspace by (apply Hlast; by rewrite last_snoc).
    by rewrite rstrip_all_spaces.
Qed.

(** White space around a stripped string is what [strip] removes. *)
Lemma strip_padded ws1 core ws2 :
  Forall space ws1 → Forall space ws2 → stripped core →
  Config.strip (ws1 ++ core ++ ws2) = core.
Proof.
  intros H1 H2 [Hhd Hlast]. unfold Config.strip. rewrite lstrip_spaces by done.
  destruct core as [|c t].
  - simpl. by rewrite lstrip_all_spaces.
  - simpl. rewrite (Hhd c) by done.
    by apply (rstrip_padded (c :: t)).
Qed.

Lemma strip_id s : stripped s → Config.strip s = s.
Proof.
  intros Hs. rewrite <- (strip_padded [] s []) at 2 by (done || constructor).
  by rewrite app_nil_r.
Qed.

Lemma lstrip_idem s : Config.lstrip (Config.lstrip s) = Config.lstrip s.
Proof.
  pose proof (lstrip_head s) as Hhd.
  destruct (Config.lstrip s) as [|c t]; [done|].
  simpl. by rewrite (Hhd c).
Qed.

Lemma strip_lstrip s : Config.strip (Config.lstrip s) = Config.strip s.
Proof. unfold Config.strip. by rewrite lstrip_idem. Qed.

Lemma split_once_found sep s :
  sep ∈ s →
  ∃ k v, Config.split_once sep s = [k; v] ∧ s = k ++ sep :: v ∧ sep ∉ k.
Proof.
  induction s as [|c s IH]; intros Hin; [by apply elem_of_nil in Hin|].
  simpl. destruct (decide (c = sep)) as [->|Hc].
  - exists [], s. split; [done|]. split; [done|]. apply not_elem_of_nil.
  - apply elem_of_cons in Hin as [->|Hin]; [done|].
    destruct (IH Hin) as (k & v & -> & -> & Hk).
    exists (c :: k), v. split; [done|]. split; [done|].
    rewrite elem_of_cons. intros [?|?]; [congruence|done].
Qed.

Lemma split_once_app sep k v :
  sep ∉ k → Config.split_once sep (k ++ sep :: v) = [k; v].
Proof.
  induction k as [|c k IH]; intros Hk; simpl.
  - by rewrite decide_True.
  - rewrite not_elem_of_cons in Hk. destruct Hk as [Hc Hk].
    rewrite decide_False by done. by rewrite IH.
Qed.

(** The loop body never fails to unpack the two halves of a line. *)
Lemma load_line_assignment config raw :
  Config.load_line config raw
  = Config.Ok (match assignment_of raw with
               | Some (key, value) => <[key := value]> config
               | None => config
               end).
Proof.
  unfold Config.load_line, assignment_of.
  destruct (bool_decide (Config.strip raw = [])
            || Config.startswith (Config.strip raw) [Config.hash]); [done|].
  destruct (bool_decide_reflect (Config.equals ∈ Config.strip raw)) as [Hin|Hin];
    simpl; [|done].
  by destruct (split_once_found _ _ Hin) as (k & v & -> & _ & _).
Qed.

Lemma load_lines_app config l1 l2 :
  Config.load_lines config (l1 ++ l2)
  = match Config.load_lines config l1 with
    | Config.Ok config1 => Config.load_lines config1 l2
    | Config.Err e => Config.Err e
    end.
Proof.
  revert config. induction l1 as [|raw l1 IH]; intros config; simpl; [done|].
  by destruct (Config.load_line config raw).
Qed.

Lemma load_lines_total config lines :
  ∃ config', Config.load_lines config lines = Config.Ok config'.
Proof.
  revert config. induction lines as [|raw lines IH]; intros config; simpl; [eauto|].
  rewrite load_line_assignment. apply IH.
Qed.

Lemma load_lines_not_assigned config lines config' key :
  Forall (λ raw, ¬ assigns key raw) lines →
  Config.load_lines config lines = Config.Ok config' →
  config' !! key = config !! key.
Proof.
  intros Hno. revert config.
  induction Hno as [|raw lines Hraw _ IH]; intros config; simpl.
  - by intros [= ->].
  - rewrite load_line_assignment. intros Hload. rewrite (IH _ Hload).
    destruct (assignment_of raw) as [[k v]|] eqn:Hass; [|done].
    apply lookup_insert_ne. intros ->. apply Hraw. by exists v.
Qed.

(** What [strip] and [split] leave of a line that assigns. *)
Lemma assignment_of_shape raw key value :
  assignment_of raw = Some (key, value) →
  stripped key ∧ stripped value ∧ (Config.equals ∉ key)
  ∧ Config.startswith key [Config.hash] = false.
Proof.
  unfold assignment_of.
  destruct (bool_decide_reflect (Config.strip raw = [])) as [|Hne]; [done|].
  destruct (Config.startswith (Config.strip raw) [Config.hash]) eqn:Hhash; [done|].
  destruct (bool_decide_reflect (Config.equals ∈ Config.strip raw)) as [Hin|];
    simpl; [|done].
  destruct (split_once_found _ _ Hin) as (k & v & -> & Hline & Hk).
  intros [= <- <-].
  split; [apply strip_stripped|]. split; [apply strip_stripped|].
  split; [intros Hkey; by apply Hk, strip_elem_of|].
  destruct k as [|c t]; [done|].
  pose proof (strip_stripped raw) as [Hhd _]. rewrite Hline in Hhd, Hhash.
  specialize (Hhd c eq_refl).
  pose proof (strip_app_nonspace [] c t Hhd) as Hstrip. simpl in Hstrip.
  rewrite Hstrip.
  unfold Config.startswith in *. simpl in *.
  apply bool_decide_eq_false. apply bool_decide_eq_false in Hhash.
  rewrite take_0 in Hhash. rewrite take_0. congruence.
Qed.

(** X1: [ConfigManager(filepath)] reads 'config/.env' when the path is
    omitted or empty.  It raises [FileNotFoundError] exactly when
    [os.path.exists] is false for the path.  For a path that exists it raises
    what [open] or the decoder raises: [IsADirectoryError] for a directory,
    [PermissionError] for a file it may not read, [UnicodeDecodeError] for a
    file that is not text.  A text file always loads, whatever its lines
    hold: the unpacking of [split] never fails. *)
Theorem config_manager_init (fs : Config.Files) :
  Config.__init__ fs None = Config.__init__ fs (Some "config/.env"%string)
  ∧ Config.__init__ fs (Some ""%string) = Config.__init__ fs (Some "config/.env"%string)
  ∧ ∀ path, path ≠ ""%string →
      (Config.__init__ fs (Some path) = Config.Err (Config.FileNotFoundError path)
       ↔ fs !! path = None)
      ∧ match fs !! path with
        | None => Config.__init__ fs (Some path)
                  = Config.Err (Config.FileNotFoundError path)
        | Some Config.Directory =>
            Config.__init__ fs (Some path)
            = Config.Err (Config.IsADirectoryError path)
        | Some Config.Forbidden =>
            Config.__init__ fs (Some path)
            = Config.Err (Config.PermissionError path)
        | Some (Config.Undecodable _) =>
            Config.__init__ fs (Some path) = Config.Err Config.UnicodeDecodeError
        | Some (Config.Text lines) =>
            ∃ config,
              Config.__init__ fs (Some path) = Config.Ok (Config.Build path config)
              ∧ Config.load_lines ∅ lines = Config.Ok config
        end.
Proof.
  split; [done|]. split; [done|].
  intros path Hpath. unfold Config.__init__, Config._load.
  rewrite bool_decide_eq_false_2 by done.
  destruct (fs !! path) as [[| |lines|lines]|]; try done.
  - destruct (load_lines_total ∅ lines) as [config ->]. done.
  - destruct (load_lines_total ∅ lines) as [config Hload]. rewrite Hload.
    split; [done|]. by exists config.
Qed.

(** X2: every key and every value of a loaded configuration is free of white
    space at both ends; no key contains '=' and none starts with '#'. *)
Theorem config_entries_stripped (fs : Config.Files) (filepath : option string)
    (self : Config.t) (key value : Config.str) :
  Config.__init__ fs filepath = Config.Ok self →
  Config.config self !! key = Some value →
  stripped key ∧ stripped value ∧ (Config.equals ∉ key)
  ∧ Config.startswith key [Config.hash] = false.
Proof.
  assert (Hinv : ∀ lines config config',
            (∀ k v, config !! k = Some v →
                    stripped k ∧ stripped v ∧ (Config.equals ∉ k)
                    ∧ Config.startswith k [Config.hash] = false) →
            Config.load_lines config lines = Config.Ok config' →
            ∀ k v, config' !! k = Some v →
                   stripped k ∧ stripped v ∧ (Config.equals ∉ k)
                   ∧ Config.startswith k [Config.hash] = false).
  { induction lines as [|raw lines IH]; intros config config' Hconfig; simpl.
    - by intros [= <-].
    - rewrite load_line_assignment. apply IH.
      destruct (assignment_of raw) as [[k0 v0]|] eqn:Hass; [|done].
      intros k v. rewrite lookup_insert. case_decide as Hk.
      + intros [= <-]. subst k. by apply (assignment_of_shape raw).
      + apply Hconfig. }
  unfold Config.__init__, Config._load.
  destruct (fs !! _) as [[| |lines|lines]|]; try done;
    [by destruct (Config.load_lines ∅ lines)|].
  destruct (Config.load_lines ∅ lines) as [config|] eqn:Hload; [|done].
  intros [= <-]. simpl. apply (Hinv lines ∅ config); [|done].
  intros k v. by rewrite lookup_empty.
Qed.

Lemma config_entries_stripped_witness :
  stripped (Config.text "COMPLEX_VALUE")
  ∧ stripped (Config.text "with=equals=signs")
  ∧ (Config.equals ∉ Config.text "COMPLEX_VALUE").
Proof.
  destruct (Config.__init__ ConfigScenario.fs None) as [self|] eqn:Hinit;
    [|vm_compute in Hinit; discriminate Hinit].
  destruct (config_entries_stripped ConfigScenario.fs None self
              (Config.text "COMPLEX_VALUE") (Config.text "with=equals=signs") Hinit)
    as (Hk & Hv & Heq & _); [|done].
  vm_compute in Hinit. injection Hinit as <-. vm_compute. reflexivity.
Defined.

Lemma config_manager_init_witness :
  Config.__init__ ConfigScenario.fs (Some "missing/.env"%string)
  = Config.Err (Config.FileNotFoundError "missing/.env")
  ∧ Config.__init__ ConfigScenario.fs (Some "config"%string)
    = Config.Err (Config.IsADirectoryError "config")
  ∧ Config.__init__ ConfigScenario.fs (Some "config/.env.bin"%string)
    = Config.Err Config.UnicodeDecodeError
  ∧ ∃ config, Config.__init__ ConfigScenario.fs (Some "config/.env"%string)
              = Config.Ok (Config.Build "config/.env" config).
Proof.
  destruct (config_manager_init ConfigScenario.fs) as (_ & _ & Hpath).
  split; [|split; [|split]].
  - destruct (Hpath "missing/.env"%string) as [_ Hinit]; [discriminate|].
    exact Hinit.
  - destruct (Hpath "config"%string) as [_ Hinit]; [discriminate|]. exact Hinit.
  - destruct (Hpath "config/.env.bin"%string) as [_ Hinit]; [discriminate|].
    exact Hinit.
  - destruct (Hpath "config/.env"%string) as (_ & config & Hinit & _); [discriminate|].
    by exists config.
Defined.

(** X3: blank lines, comment lines and lines without '=' are skipped: a file
    loads to the same configuration with or without such a line, wherever
    it stands. *)
Theorem config_skips_other_lines (fs : Config.Files) (path : string)
    (before after : list Config.str) (raw : Config.str) :
  Config.strip raw = []
  ∨ Config.startswith (Config.strip raw) [Config.hash] = true
  ∨ Config.equals ∉ Config.strip raw →
  Config._load (<[path := Config.Text (before ++ raw :: after)]> fs) path
  = Config._load (<[path := Config.Text (before ++ after)]> fs) path.
Proof.
  intros Hskip. unfold Config._load. rewrite !lookup_insert_eq.
  rewrite !load_lines_app.
  destruct (Config.load_lines ∅ before) as [config|]; [|done].
  simpl. rewrite load_line_assignment.
  assert (Hnone : assignment_of raw = None); [|by rewrite Hnone].
  unfold assignment_of. destruct Hskip as [->|[->|Hno]].
  - done.
  - by rewrite orb_true_r.
  - rewrite (bool_decide_eq_false_2 _ Hno). simpl.
    by destruct (_ || _).
Qed.

Lemma config_skips_other_lines_witness :
  Config._load
    (<["config/.env"%string :=
         Config.Text ([ConfigScenario.line "DB_HOST=localhost"]
                      ++ ConfigScenario.line "# This is a comment"
                      :: [ConfigScenario.line "API_KEY=secret123"])]> ∅)
    "config/.env"
  = Config._load
      (<["config/.env"%string :=
           Config.Text ([ConfigScenario.line "DB_HOST=localhost"]
                        ++ [ConfigScenario.line "API_KEY=secret123"])]> ∅)
      "config/.env".
Proof.
  apply config_skips_other_lines. right. left. vm_compute. reflexivity.
Defined.

Lemma isspace_equals : Config.isspace Config.equals = false.
Proof. reflexivity. Qed.

Lemma space_not_equals ws : Forall space ws → Config.equals ∉ ws.
Proof.
  rewrite Forall_forall. intros Hws Hin. specialize (Hws _ Hin).
  unfold space in Hws. by rewrite isspace_equals in Hws.
Qed.

(** X4: in a line [key = value], white space before and after the key and
    before and after the value is dropped, and the value may itself contain
    '=': the line sets [key] to [value]. *)
Theorem config_line_with_padding (config : gmap Config.str Config.str)
    (ws1 key ws2 ws3 value ws4 : Config.str) :
  Forall space ws1 → Forall space ws2 → Forall space ws3 → Forall space ws4 →
  stripped key → stripped value →
  Config.equals ∉ key →
  Config.startswith key [Config.hash] = false →
  Config.load_line config
    (ws1 ++ key ++ ws2 ++ [Config.equals] ++ ws3 ++ value ++ ws4)
  = Config.Ok (<[key := value]> config).
Proof.
  intros H1 H2 H3 H4 Hkey Hvalue Heq Hhash.
  rewrite load_line_assignment.
  assert (Hass : assignment_of
                   (ws1 ++ key ++ ws2 ++ [Config.equals] ++ ws3 ++ value ++ ws4)
                 = Some (key, value)); [|by rewrite Hass].
  unfold assignment_of.
  replace (ws1 ++ key ++ ws2 ++ [Config.equals] ++ ws3 ++ value ++ ws4)
    with ((ws1 ++ key ++ ws2) ++ Config.equals :: (ws3 ++ value ++ ws4))
    by (by rewrite <- !app_assoc).
  rewrite strip_app_nonspace by apply isspace_equals.
  set (K := Config.lstrip (ws1 ++ key ++ ws2)).
  set (V := Config.rstrip (ws3 ++ value ++ ws4)).
  assert (HK : K = [] ∧ key = [] ∨ ∃ c t, key = c :: t ∧ K = key ++ ws2).
  { subst K. rewrite lstrip_spaces by done. destruct key as [|c t].
    - left. split; [|done]. by apply lstrip_all_spaces.
    - right. exists c, t. split; [done|]. simpl.
      destruct Hkey as [Hhd _]. by rewrite (Hhd c). }
  assert (HKeq : Config.equals ∉ K).
  { destruct HK as [[-> _]|(c & t & _ & ->)]; [apply not_elem_of_nil|].
    rewrite elem_of_app. intros [?|?]; [done|]. by apply (space_not_equals ws2). }
  assert (HKstrip : Config.strip K = key).
  { subst K. rewrite strip_lstrip. by apply strip_padded. }
  assert (HVstrip : Config.strip V = value).
  { subst V. destruct value as [|c t].
    - simpl. rewrite rstrip_all_spaces by by apply Forall_app. done.
    - rewrite app_assoc, rstrip_padded; [|intros d|done].
      + rewrite <- (app_nil_r (ws3 ++ c :: t)), <- app_assoc. by apply strip_padded.
      + rewrite last_app_cons. destruct Hvalue as [_ Hlast]. apply Hlast. }
  rewrite bool_decide_eq_false_2 by by destruct K.
  simpl.
  replace (Config.startswith (K ++ Config.equals :: V) [Config.hash]) with false.
  - rewrite bool_decide_eq_true_2
      by (apply elem_of_app; right; apply elem_of_cons; by left).
    simpl. rewrite split_once_app by done. by rewrite HKstrip, HVstrip.
  - symmetry. unfold Config.startswith in *. apply bool_decide_eq_false.
    apply bool_decide_eq_false in Hhash.
    destruct HK as [[-> _]|(c & t & -> & ->)]; simpl in *; [discriminate|].
    rewrite take_0 in Hhash. rewrite take_0. congruence.
Qed.

Lemma config_line_with_padding_witness :
  Config.load_line ∅ (Config.text "  COMPLEX_VALUE = with=equals=signs  ")
  = Config.Ok {[ Config.text "COMPLEX_VALUE" := Config.text "with=equals=signs" ]}.
Proof.
  apply (config_line_with_padding ∅ (Config.text "  ") (Config.text "COMPLEX_VALUE")
           (Config.text " ") (Config.text " ") (Config.text "with=equals=signs")
           (Config.text "  "));
    try (repeat constructor; fail);
    try (split; intros c; vm_compute; by intros [= <-]).
  apply (bool_decide_unpack _). vm_compute. exact I.
Defined.

(** X5: when a key is assigned more than once, the last assignment in the
    file is the one that counts: [get], [config[key]] and [key in config]
    all see the value of the last line that assigns the key. *)
Theorem config_last_assignment_wins (fs : Config.Files) (path : string)
    (before after : list Config.str) (raw key value : Config.str) :
  fs !! path = Some (Config.Text (before ++ raw :: after)) →
  assignment_of raw = Some (key, value) →
  Forall (λ later, ¬ assigns key later) after →
  ∃ config,
    Config._load fs path = Config.Ok config
    ∧ (∀ default, Config.get (Config.Build path config) key default = Some value)
    ∧ Config.__getitem__ (Config.Build path config) key = Config.Ok value
    ∧ Config.__contains__ (Config.Build path config) key = true.
Proof.
  intros Hfile Hraw Hafter. unfold Config._load. rewrite Hfile.
  destruct (load_lines_total ∅ (before ++ raw :: after)) as [config Hload].
  exists config. split; [done|].
  assert (Hkey : config !! key = Some value).
  { rewrite load_lines_app in Hload.
    destruct (Config.load_lines ∅ before) as [config1|]; [|done].
    simpl in Hload. rewrite load_line_assignment, Hraw in Hload.
    rewrite (load_lines_not_assigned _ _ _ key Hafter Hload).
    apply lookup_insert_eq. }
  unfold Config.get, Config.__getitem__, Config.__contains__. simpl. rewrite Hkey.
  split; [done|]. split; [done|]. apply bool_decide_eq_true. eauto.
Qed.

Lemma config_last_assignment_wins_witness :
  ∃ config,
    Config._load ConfigScenario.fs_keys "config/.env" = Config.Ok config
    ∧ Config.__getitem__ (Config.Build "config/.env" config) GROQ_API_KEY
      = Config.Ok (Config.text "gsk-second").
Proof.
  destruct (config_last_assignment_wins ConfigScenario.fs_keys "config/.env"
              [ConfigScenario.line "OPENAI_API_KEY = sk-file";
               ConfigScenario.line "GROQ_API_KEY=gsk-file"]
              [] (ConfigScenario.line "GROQ_API_KEY=gsk-second")
              GROQ_API_KEY (Config.text "gsk-second"))
    as (config & Hload & _ & Hitem & _).
  - vm_compute. reflexivity.
  - vm_compute. reflexivity.
  - constructor.
  - by exists config.
Defined.

Lemma load_unassigned_key (fs : Config.Files) (path : string)
    (lines : list Config.str) (key : Config.str) :
  fs !! path = Some (Config.Text lines) →
  Forall (λ raw, ¬ assigns key raw) lines →
  ∃ config,
    Config._load fs path = Config.Ok config
    ∧ (∀ default, Config.get (Config.Build path config) key default = default)
    ∧ Config.__getitem__ (Config.Build path config) key
      = Config.Err (Config.KeyError key)
    ∧ Config.__contains__ (Config.Build path config) key = false.
Proof.
  intros Hfile Hlines. unfold Config._load. rewrite Hfile.
  destruct (load_lines_total ∅ lines) as [config Hload].
  exists config. split; [done|].
  assert (Hkey : config !! key = None).
  { rewrite (load_lines_not_assigned _ _ _ key Hlines Hload). apply lookup_empty. }
  unfold Config.get, Config.__getitem__, Config.__contains__. simpl. rewrite Hkey.
  split; [done|]. split; [done|]. apply bool_decide_eq_false. by intros [v Hv].
Qed.

(** X6: a key that no line of the file assigns is absent: [get] returns the
    default it is given, [config[key]] raises [KeyError], and [key in
    config] is false. *)
Theorem config_unassigned_key (fs : Config.Files) (path : string)
    (lines : list Config.str) (key : Config.str) :
  fs !! path = Some (Config.Text lines) →
  Forall (λ raw, ¬ assigns key raw) lines →
  ∃ config,
    Config._load fs path = Config.Ok config
    ∧ (∀ default, Config.get (Config.Build path config) key default = default)
    ∧ Config.__getitem__ (Config.Build path config) key
      = Config.Err (Config.KeyError key)
    ∧ Config.__contains__ (Config.Build path config) key = false.
Proof. apply load_unassigned_key. Qed.

Lemma config_unassigned_key_witness :
  ∃ config,
    Config._load ConfigScenario.fs "config/.env" = Config.Ok config
    ∧ Config.get (Config.Build "config/.env" config) (Config.text "MISSING_KEY")
        (Some (Config.text "default")) = Some (Config.text "default")
    ∧ Config.get (Config.Build "config/.env" config) (Config.text "MISSING_KEY") None
      = None.
Proof.
  destruct (config_unassigned_key ConfigScenario.fs "config/.env"
              ConfigScenario.env_lines (Config.text "MISSING_KEY"))
    as (config & Hload & Hget & _).
  - reflexivity.
  - unfold ConfigScenario.env_lines.
    repeat (constructor; [intros [v Hv]; vm_compute in Hv; discriminate Hv|]).
    constructor.
  - exists config. by rewrite !Hget.
Defined.

(** ** The start-up code *)

Lemma environ_default_Ok config key environ environ' :
  environ_default config key environ = Config.Ok environ' →
  match environ !! key with
  | Some (c :: v) => environ' = environ
  | _ => ∃ v, Config.config config !! key = Some v ∧ environ' = <[key := v]> environ
  end.
Proof.
  unfold environ_default, environ_setitem, Config.get.
  destruct (environ !! key) as [[|c v]|];
    [|by intros [= <-]|];
    (destruct (Config.config config !! key) as [v'|]; [|done]);
    (case_bool_decide; [done|]); intros [= <-]; eauto.
Qed.

Lemma api_keys_differ : OPENAI_API_KEY ≠ GROQ_API_KEY.
Proof. discriminate. Qed.

(** X7: when the module-level code of chat_service.py runs through, each of
    the two API keys is set in the process environment: a key the
    environment already held with a non-empty value keeps that value, and a
    key that was unset or empty takes the value of the configuration file.
    No other variable is touched. *)
Theorem chat_service_startup_environment (fs : Config.Files)
    (environ environ' : gmap Config.str Config.str) :
  chat_service_startup fs environ = Config.Ok environ' →
  ∃ config,
    Config.__init__ fs None = Config.Ok config
    ∧ (∀ key, key = OPENAI_API_KEY ∨ key = GROQ_API_KEY →
         match environ !! key with
         | Some (c :: v) => environ' !! key = Some (c :: v)
         | _ => ∃ v, Config.config config !! key = Some v
                     ∧ environ' !! key = Some v
         end)
    ∧ (∀ key, key ≠ OPENAI_API_KEY → key ≠ GROQ_API_KEY →
         environ' !! key = environ !! key).
Proof.
  unfold chat_service_startup.
  destruct (Config.__init__ fs None) as [config|]; [|done].
  destruct (environ_default config OPENAI_API_KEY environ) as [environ1|] eqn:H1;
    [|done].
  intros H2. exists config. split; [done|].
  apply environ_default_Ok in H1, H2.
  assert (Hgroq : environ1 !! GROQ_API_KEY = environ !! GROQ_API_KEY).
  { destruct (environ !! OPENAI_API_KEY) as [[|c v]|];
      [destruct H1 as (v & _ & ->)|by subst|destruct H1 as (v & _ & ->)];
      apply lookup_insert_ne, api_keys_differ. }
  rewrite Hgroq in H2.
  assert (Hopenai : environ' !! OPENAI_API_KEY = environ1 !! OPENAI_API_KEY).
  { destruct (environ !! GROQ_API_KEY) as [[|c v]|];
      [destruct H2 as (v & _ & ->)|by subst|destruct H2 as (v & _ & ->)];
      apply lookup_insert_ne; intros Heq; by apply api_keys_differ. }
  split.
  - intros key [->| ->].
    + rewrite Hopenai.
      destruct (environ !! OPENAI_API_KEY) as [[|c v]|] eqn:He;
        [destruct H1 as (v & Hv & ->)|by subst|destruct H1 as (v & Hv & ->)];
        exists v; by rewrite lookup_insert_eq.
    + destruct (environ !! GROQ_API_KEY) as [[|c v]|] eqn:He;
        [destruct H2 as (v & Hv & ->)|subst; by rewrite Hgroq
        |destruct H2 as (v & Hv & ->)];
        exists v; by rewrite lookup_insert_eq.
  - intros key Hk1 Hk2.
    assert (H01 : environ1 !! key = environ !! key).
    { destruct (environ !! OPENAI_API_KEY) as [[|c v]|];
        [destruct H1 as (v & _ & ->)|by subst|destruct H1 as (v & _ & ->)];
        by apply lookup_insert_ne. }
    rewrite <- H01.
    destruct (environ !! GROQ_API_KEY) as [[|c v]|];
      [destruct H2 as (v & _ & ->)|by subst|destruct H2 as (v & _ & ->)];
      by apply lookup_insert_ne.
Qed.

Lemma chat_service_startup_environment_witness :
  ∃ environ',
    chat_service_startup ConfigScenario.fs_keys ConfigScenario.environ
    = Config.Ok environ'
    ∧ environ' !! OPENAI_API_KEY = Some (Config.text "sk-env")
    ∧ environ' !! GROQ_API_KEY = Some (Config.text "gsk-second").
Proof.
  destruct (chat_service_startup ConfigScenario.fs_keys ConfigScenario.environ)
    as [environ'|] eqn:Hstart; [|vm_compute in Hstart; discriminate Hstart].
  destruct (chat_service_startup_environment _ _ _ Hstart)
    as (config & Hinit & Hkeys & _).
  exists environ'. split; [done|].
  assert (Hfile : Config.config config !! GROQ_API_KEY
                  = Some (Config.text "gsk-second")).
  { vm_compute in Hinit. injection Hinit as <-. vm_compute. reflexivity. }
  assert (Henv1 : ConfigScenario.environ !! OPENAI_API_KEY
                  = Some (Config.text "sk-env")) by (vm_compute; reflexivity).
  assert (Henv2 : ConfigScenario.environ !! GROQ_API_KEY = Some [])
    by (vm_compute; reflexivity).
  pose proof (Hkeys OPENAI_API_KEY (or_introl eq_refl)) as Hopenai.
  pose proof (Hkeys GROQ_API_KEY (or_intror eq_refl)) as Hgroq.
  rewrite Henv1 in Hopenai. rewrite Henv2 in Hgroq.
  split; [exact Hopenai|].
  destruct Hgroq as (v & Hv & ->). by rewrite <- Hfile.
Defined.

(** X8: the same code fails at import when the configuration file is
    missing, even if the environment already holds both keys, and it fails
    with [TypeError] when OPENAI_API_KEY is neither set to a non-empty value
    in the environment nor assigned in the file; a GROQ_API_KEY missing in
    both places makes it fail as well. *)
Theorem chat_service_startup_failures (fs : Config.Files)
    (environ : gmap Config.str Config.str) :
  (fs !! "config/.env"%string = None →
   chat_service_startup fs environ
   = Config.Err (Config.FileNotFoundError "config/.env"))
  ∧ (∀ lines key,
       fs !! "config/.env"%string = Some (Config.Text lines) →
       key = OPENAI_API_KEY ∨ key = GROQ_API_KEY →
       environ !! key = None ∨ environ !! key = Some [] →
       Forall (λ raw, ¬ assigns key raw) lines →
       ∃ e, chat_service_startup fs environ = Config.Err e
            ∧ (key = OPENAI_API_KEY → e = Config.TypeError)).
Proof.
  split.
  - intros Hfile. unfold chat_service_startup, Config.__init__, Config._load.
    by rewrite Hfile.
  - intros lines key Hfile Hkey Henv Hlines.
    destruct (load_unassigned_key fs "config/.env" lines key Hfile Hlines)
      as (config & Hload & Hget & _).
    unfold chat_service_startup, Config.__init__. simpl. rewrite Hload.
    destruct Hkey as [->| ->].
    + exists Config.TypeError. split; [|done].
      unfold environ_default. rewrite (Hget None).
      by destruct Henv as [-> | ->].
    + destruct (environ_default _ OPENAI_API_KEY environ) as [environ1|e] eqn:H1;
        [|by exists e].
      exists Config.TypeError. split; [|intros Heq; by destruct api_keys_differ].
      assert (Hgroq : environ1 !! GROQ_API_KEY = environ !! GROQ_API_KEY).
      { apply environ_default_Ok in H1.
        destruct (environ !! OPENAI_API_KEY) as [[|c v]|];
          [destruct H1 as (v & _ & ->)|by subst|destruct H1 as (v & _ & ->)];
          apply lookup_insert_ne, api_keys_differ. }
      unfold environ_default. rewrite Hgroq, (Hget None).
      by destruct Henv as [-> | ->].
Qed.

Lemma chat_service_startup_failures_witness :
  chat_service_startup ∅ ConfigScenario.environ
  = Config.Err (Config.FileNotFoundError "config/.env")
  ∧ ∃ e, chat_service_startup ConfigScenario.fs ∅ = Config.Err e
         ∧ e = Config.TypeError.
Proof.
  split.
  - by apply (chat_service_startup_failures ∅ ConfigScenario.environ).
  - destruct (chat_service_startup_failures ConfigScenario.fs ∅) as [_ Hkey].
    destruct (Hkey ConfigScenario.env_lines OPENAI_API_KEY) as (e & He & Hty).
    + reflexivity.
    + by left.
    + by left.
    + unfold ConfigScenario.env_lines.
      repeat (constructor; [intros [v Hv]; vm_compute in Hv; discriminate Hv|]).
      constructor.
    + exists e. split; [exact He|by apply Hty].
Defined.

(** ** Referential integrity of the store *)

Lemma references_resolve_empty : references_resolve empty_db.
Proof. split; [constructor|]. intros sid row. simpl. by rewrite lookup_empty. Qed.

Lemma references_after_create env w session_id role content row :
  sessions (db w) !! session_id = Some row →
  references_resolve (db w) →
  references_resolve (db (world_after_create w (new_row env w session_id role content))).
Proof.
  intros Hs [Hm Ha]. split; simpl; [|done].
  apply Forall_app. split; [done|]. constructor; [simpl; eauto|constructor].
Qed.

Section References.
Context {store : RecordStore}.

Lemma generate_response_references env session_id text w :
  references_resolve (db w) →
  references_resolve (db (generate_response env session_id text w).1).
Proof.
  intros Href.
  destruct (generate_response_cases env w session_id text)
    as [[-> _]|(row & a & Hs & _ & [[_ ->]|(c & _ & ->)])]; simpl fst.
  - done.
  - by apply (references_after_create env w session_id Message.USER text row).
  - apply (references_after_create env (world_llm_called env w a session_id text)
             session_id Message.AGENT c row); [done|].
    by apply (references_after_create env w session_id Message.USER text row).
Qed.

(** The voice pipeline writes to the store through the chat turn only. *)
Lemma process_voice_message_db (P : Database → Prop) env session_id audio_file w :
  (∀ text w1, P (db w1) → P (db (generate_response env session_id text w1).1)) →
  P (db w) → P (db (process_voice_message env session_id audio_file w).1).
Proof.
  intros Hgr HP. unfold process_voice_message. unfold bind at 1.
  pose proof (speech_to_text_footprint env audio_file w) as (Hdb & _).
  destruct (speech_to_text env audio_file w) as [w1 [user_text|e]]; simpl in *;
    [|by rewrite Hdb].
  unfold bind at 1.
  pose proof (Hgr user_text w1) as Hgr1. rewrite Hdb in Hgr1. specialize (Hgr1 HP).
  destruct (generate_response env session_id user_text w1) as [w2 [reply|e]];
    simpl in *; [|done].
  unfold bind.
  pose proof (text_to_speech_db env reply w2) as Htts.
  destruct (text_to_speech env reply w2) as [w3 [audio|e]]; simpl in *;
    by rewrite Htts.
Qed.

Lemma handle_references env r w :
  references_resolve (db w) → references_resolve (db (handle env r w)).
Proof.
  intros [Hm Ha]. destruct r; simpl.
  - split; simpl; [done|]. intros sid row Hrow.
    destruct (Ha sid row Hrow) as [a Hagent].
    rewrite lookup_insert. case_decide; eauto.
  - unfold Agent_update, bind, get_world.
    destruct (agents (db w) !! agent_id) eqn:Hold; simpl; [|done].
    split; simpl; [done|]. intros sid row Hrow.
    destruct (Ha sid row Hrow) as [a Hagent].
    rewrite lookup_insert. case_decide; eauto.
  - unfold Agent_delete, bind, get_world.
    destruct (agents (db w) !! agent_id) eqn:Hold; simpl; [|done].
    split; simpl.
    + rewrite Forall_forall in Hm. apply Forall_forall. intros m Hin.
      apply list_elem_of_filter in Hin as [Hkeep Hin].
      destruct (Hm m Hin) as [row Hrow]. exists row.
      apply map_lookup_filter_Some. split; [done|]. simpl.
      unfold session_of_agent in Hkeep. rewrite Hrow in Hkeep.
      by apply bool_decide_eq_false in Hkeep.
    + intros sid row Hrow. apply map_lookup_filter_Some in Hrow as [Hrow Hne].
      simpl in Hne. destruct (Ha sid row Hrow) as [a Hagent].
      exists a. by rewrite lookup_delete_ne.
  - unfold ChatSession_objects_create, bind, get_world.
    destruct (agents (db w) !! agent_id) eqn:Hold; simpl; [|done].
    split; simpl.
    + eapply Forall_impl; [exact Hm|]. simpl. intros m [row Hrow].
      rewrite lookup_insert. case_decide; eauto.
    + intros sid row. rewrite lookup_insert. case_decide.
      * intros [= <-]. simpl. eauto.
      * apply Ha.
  - unfold ChatSession_delete, bind, get_world.
    destruct (sessions (db w) !! session_id) eqn:Hold; simpl; [|done].
    split; simpl.
    + rewrite Forall_forall in Hm. apply Forall_forall. intros m Hin.
      apply list_elem_of_filter in Hin as [Hkeep Hin].
      destruct (Hm m Hin) as [row Hrow]. exists row.
      by rewrite lookup_delete_ne.
    + intros sid row Hrow. apply lookup_delete_Some in Hrow as [_ Hrow].
      by apply (Ha sid).
  - by apply generate_response_references.
  - apply (process_voice_message_db references_resolve); [|done].
    intros text w1. apply generate_response_references.
Qed.

End References.

Lemma reachable_references {store : RecordStore} (w : World) :
  reachable w → references_resolve (db w).
Proof.
  induction 1 as [|env r w _ IH];
    [apply references_resolve_empty|by apply handle_references].
Qed.

(** X9: in every world the platform can reach, each message belongs to a
    session that exists and each session to an agent that exists: deleting an
    agent or a session takes its dependants with it, and no request leaves a
    dangling reference behind. *)
Theorem reachable_references_resolve {store : RecordStore} (w : World) :
  reachable w →
  Forall (λ m, is_Some (sessions (db w) !! Message.session m)) (messages (db w))
  ∧ ∀ session_id row, sessions (db w) !! session_id = Some row →
                      is_Some (agents (db w) !! ChatSession.agent row).
Proof. apply reachable_references. Qed.

Lemma reachable_references_resolve_witness :
  let w := handle (store:=oldest_first_store) Scenario.env_up (DeleteAgent 1)
             Scenario.w_one_turn in
  messages (db w) = []
  ∧ Forall (λ m, is_Some (sessions (db w) !! Message.session m)) (messages (db w)).
Proof.
  intros w. split; [vm_compute; reflexivity|].
  apply (reachable_references_resolve (store:=oldest_first_store) w).
  constructor. apply w_one_turn_reachable.
Defined.

(** X10: in a reachable world [generate_response] raises [DoesNotExist] only
    for a session identifier that is not in the store; for a session that
    exists the call gets as far as the LLM client, so the user message is
    stored. *)
Theorem generate_response_not_found_iff {store : RecordStore} (env : Env)
    (w : World) (session_id : Z) (user_text : string) :
  reachable w →
  ((generate_response env session_id user_text w).2 = Raise DoesNotExist
   ↔ sessions (db w) !! session_id = None)
  ∧ (is_Some (sessions (db w) !! session_id) →
     ∃ user_msg rest,
       Message.role user_msg = Message.USER
       ∧ Message.content user_msg = user_text
       ∧ messages (db (generate_response env session_id user_text w).1)
         = messages (db w) ++ user_msg :: rest).
Proof.
  intros Hreach.
  destruct (reachable_references w Hreach) as [_ Hagents].
  destruct (generate_response_cases env w session_id user_text)
    as [[Hgr [Hs|(row & Hs & Ha)]]|(row & a & Hs & Ha & Hcase)].
  - rewrite Hgr, Hs. split; [done|]. by intros [? ?].
  - destruct (Hagents session_id row Hs) as [a Hsome]. congruence.
  - rewrite Hs. split.
    + destruct Hcase as [[_ ->]|(c & _ & ->)]; simpl; split; discriminate.
    + intros _. exists (new_row env w session_id Message.USER user_text).
      destruct Hcase as [[_ ->]|(c & _ & ->)].
      * by exists [].
      * eexists [_]. simpl fst. by rewrite messages_turn_done.
Qed.

Lemma generate_response_not_found_iff_witness :
  (generate_response (store:=oldest_first_store) Scenario.env_llm_down 99999 "Test"
     Scenario.w_one_turn).2 = Raise DoesNotExist
  ∧ (generate_response (store:=oldest_first_store) Scenario.env_llm_down 1 "Test"
       Scenario.w_one_turn).2 ≠ Raise DoesNotExist.
Proof.
  destruct (generate_response_not_found_iff (store:=oldest_first_store)
              Scenario.env_llm_down Scenario.w_one_turn 99999 "Test"
              w_one_turn_reachable) as [Hmissing _].
  destruct (generate_response_not_found_iff (store:=oldest_first_store)
              Scenario.env_llm_down Scenario.w_one_turn 1 "Test"
              w_one_turn_reachable) as [Hfound _].
  split.
  - apply Hmissing. vm_compute. reflexivity.
  - intros Hgr. apply Hfound in Hgr. vm_compute in Hgr. discriminate Hgr.
Defined.

(** ** What a chat turn leaves alone *)

(** X11: [generate_response] only ever appends: the rows it adds, two at
    most, belong to the session it was called for and come after every row
    already stored.  The agents, the sessions, the logs of the other
    sessions and the temporary directory are as before, and it calls no
    service but the LLM client. *)
Theorem generate_response_frame {store : RecordStore} (env : Env) (w : World)
    (session_id : Z) (user_text : string) :
  let w' := (generate_response env session_id user_text w).1 in
  agents (db w') = agents (db w)
  ∧ sessions (db w') = sessions (db w)
  ∧ tmpdir w' = tmpdir w
  ∧ (∃ new, messages (db w') = messages (db w) ++ new
            ∧ Forall (λ m, Message.session m = session_id) new
            ∧ (length new ≤ 2)%nat)
  ∧ (∀ other, other ≠ session_id →
              session_messages (db w') other = session_messages (db w) other)
  ∧ (∃ evs, trace w' = trace w ++ evs
            ∧ Forall (λ ev, match ev with
                            | EvMessageCreated _ | EvLLMInvoke _ => True
                            | _ => False
                            end) evs).
Proof.
  intros w'.
  assert (Hother : ∀ new other,
            Forall (λ m, Message.session m = session_id) new →
            other ≠ session_id →
            filter (λ m, Message.session m = other) (messages (db w) ++ new)
            = filter (λ m, Message.session m = other) (messages (db w))).
  { intros new other Hnew Hne. rewrite filter_app.
    rewrite <- (app_nil_r (filter _ (messages (db w)))) at 2. f_equal.
    induction Hnew as [|m new Hm _ IH]; [done|].
    rewrite filter_cons_False by congruence. exact IH. }
  subst w'.
  destruct (generate_response_cases env w session_id user_text)
    as [[-> _]|(row & a & _ & _ & [[_ ->]|(c & _ & ->)])]; simpl fst.
  - split; [done|]. split; [done|]. split; [done|]. split; [|split; [done|]].
    + exists []. rewrite app_nil_r. split; [done|]. split; [constructor|simpl; lia].
    + exists []. rewrite app_nil_r. split; [done|constructor].
  - split; [done|]. split; [done|]. split; [done|]. split; [|split].
    + eexists [_]. split; [reflexivity|]. split; [by repeat constructor|simpl; lia].
    + intros other Hne. unfold session_messages. simpl.
      apply Hother; [by repeat constructor|done].
    + eexists [_; _]. simpl. rewrite <- !app_assoc. split; [reflexivity|].
      by repeat constructor.
  - split; [done|]. split; [done|]. split; [done|]. split; [|split].
    + eexists [_; _]. rewrite messages_turn_done. split; [reflexivity|].
      split; [by repeat constructor|simpl; lia].
    + intros other Hne. unfold session_messages. rewrite messages_turn_done.
      apply Hother; [by repeat constructor|done].
    + eexists [_; _; _]. rewrite trace_turn_done. split; [reflexivity|].
      by repeat constructor.
Qed.

(** ** The rendered sequence *)

Lemma rendered_history_not_system context :
  Forall (λ b, ¬ is_system b) (rendered_history context).
Proof.
  induction context as [|e rest IH]; simpl; [constructor|].
  unfold as_langchain.
  destruct (String.eqb (entry_role e) Message.USER); [by constructor; auto|].
  destruct (String.eqb (entry_role e) Message.AGENT); [by constructor; auto|done].
Qed.

(** X12: whatever the history holds, the sequence built for the LLM client
    has exactly one system message, the agent's prompt at its head, and ends
    with the new user text: no stored role and no stored content can add a
    second system message. *)
Theorem build_langchain_messages_one_system (agent_prompt : string)
    (context : list ContextEntry) (user_message : string) :
  filter is_system (build_langchain_messages agent_prompt context user_message)
  = [SystemMessage agent_prompt]
  ∧ head (build_langchain_messages agent_prompt context user_message)
    = Some (SystemMessage agent_prompt)
  ∧ last (build_langchain_messages agent_prompt context user_message)
    = Some (HumanMessage user_message).
Proof.
  rewrite build_langchain_messages_eq. split; [|split; [done|]].
  - rewrite filter_cons_True by done. f_equal.
    rewrite filter_app, (filter_cons_False _ (HumanMessage _)) by auto.
    rewrite app_nil_r.
    pose proof (rendered_history_not_system context) as Hno.
    induction Hno as [|b l Hb _ IH]; [done|].
    by rewrite filter_cons_False.
  - rewrite app_comm_cons. apply last_snoc.
Qed.

Lemma render_entry_inj e1 e2 :
  valid_role (entry_role e1) → valid_role (entry_role e2) →
  render_entry e1 = render_entry e2 → e1 = e2.
Proof.
  destruct e1 as [r1 c1], e2 as [r2 c2]. unfold render_entry. simpl.
  intros [-> | ->] [-> | ->]; simpl; intros [= ->]; done.
Qed.

(** X13: on histories whose roles are 'user' or 'agent' the rendering loses
    nothing: two calls that build the same sequence were given the same
    prompt, the same history and the same user text. *)
Theorem build_langchain_messages_injective (prompt1 prompt2 : string)
    (context1 context2 : list ContextEntry) (text1 text2 : string) :
  Forall (λ e, valid_role (entry_role e)) context1 →
  Forall (λ e, valid_role (entry_role e)) context2 →
  build_langchain_messages prompt1 context1 text1
  = build_langchain_messages prompt2 context2 text2 →
  prompt1 = prompt2 ∧ context1 = context2 ∧ text1 = text2.
Proof.
  intros H1 H2. rewrite !build_langchain_messages_eq, !rendered_history_filter.
  assert (Hall : ∀ c, Forall (λ e, valid_role (entry_role e)) c →
                      filter (λ e, valid_role (entry_role e)) c = c).
  { induction 1 as [|e c He _ IH]; [done|]. by rewrite filter_cons_True, IH. }
  rewrite (Hall _ H1), (Hall _ H2).
  intros [= -> Heq]. apply app_inj_tail in Heq as [Hmap [= ->]].
  split; [done|]. split; [|done].
  clear Hall. revert context2 H2 Hmap.
  induction H1 as [|e1 c1 He1 _ IH]; intros [|e2 c2] H2 Hmap; try done.
  apply Forall_cons in H2 as [He2 H2]. simpl in Hmap. injection Hmap as He Hmap.
  f_equal; [by apply render_entry_inj|by apply IH].
Qed.

Lemma build_langchain_messages_injective_witness :
  "You are a helpful assistant." = "You are a helpful assistant."
  ∧ [MkEntry "user" "Hi"; MkEntry "agent" "Hello! How can I help?"]
    = [MkEntry "user" "Hi"; MkEntry "agent" "Hello! How can I help?"]
  ∧ "What's 2+2?" = "What's 2+2?".
Proof.
  apply (build_langchain_messages_injective
           "You are a helpful assistant." "You are a helpful assistant."
           [MkEntry "user" "Hi"; MkEntry "agent" "Hello! How can I help?"]
           [MkEntry "user" "Hi"; MkEntry "agent" "Hello! How can I help?"]
           "What's 2+2?" "What's 2+2?").
  - constructor; [by left|]. constructor; [by right|constructor].
  - constructor; [by left|]. constructor; [by right|constructor].
  - reflexivity.
Defined.

(** ** From one turn to the next *)

(** A row newer than all the others is the last row of every sorted
    arrangement. *)
Lemma sorted_newest_last (L rows : list Message.t) (x : Message.t) :
  Sorted Message.created_le L →
  L ≡ₚ rows ++ [x] →
  Forall (λ r, Message.created_at r < Message.created_at x) rows →
  ∃ L0, L = L0 ++ [x] ∧ L0 ≡ₚ rows ∧ Sorted Message.created_le L0.
Proof.
  intros Hsorted Hperm Hnewer.
  assert (Hin : x ∈ L) by (rewrite Hperm, elem_of_app; right; by left).
  apply list_elem_of_split in Hin as (L1 & L2 & ->).
  apply (Sorted_StronglySorted Message.created_le) in Hsorted.
  apply StronglySorted_app in Hsorted as (_ & Hs1 & Hs2).
  apply StronglySorted_cons in Hs2 as [Hafter _].
  assert (Hrest : L1 ++ L2 ≡ₚ rows).
  { apply (Permutation_cons_inv (a:=x)).
    rewrite Permutation_middle, Hperm. by rewrite Permutation_app_comm. }
  destruct L2 as [|y L2].
  - rewrite app_nil_r in Hrest. exists L1. split; [done|]. split; [done|].
    by apply StronglySorted_Sorted.
  - exfalso. apply Forall_cons in Hafter as [Hxy _].
    rewrite Forall_forall in Hnewer.
    assert (Hy : y ∈ rows)
      by (rewrite <- Hrest, elem_of_app; right; by left).
    specialize (Hnewer y Hy). unfold Message.created_le in Hxy. lia.
Qed.

(** X14: when the clock is ahead of the rows already stored and advances
    between the two inserts, the history the next turn reads is the earlier
    rows in creation order followed by this turn: the user entry, then the
    agent entry.  When the earlier rows have distinct creation times the new
    history is the old one with the two entries appended. *)
Theorem next_turn_sees_this_turn {store : RecordStore} (env : Env) (w w' : World)
    (session_id : Z) (user_text completion : string) :
  generate_response env session_id user_text w = (w', Return completion) →
  Forall (λ m, Message.created_at m < now env (clock_reads w))
    (session_messages (db w) session_id) →
  now env (clock_reads w) < now env (S (clock_reads w)) →
  ∃ earlier,
    earlier ≡ₚ session_messages (db w) session_id
    ∧ Sorted Message.created_le earlier
    ∧ get_session_context (db w') session_id
      = map entry_of earlier
        ++ [MkEntry Message.USER user_text; MkEntry Message.AGENT completion]
    ∧ ((∀ m1 m2, m1 ∈ session_messages (db w) session_id →
                 m2 ∈ session_messages (db w) session_id →
                 Message.created_at m1 = Message.created_at m2 → m1 = m2) →
       get_session_context (db w') session_id
       = get_session_context (db w) session_id
         ++ [MkEntry Message.USER user_text; MkEntry Message.AGENT completion]).
Proof.
  intros Hgr Hahead Htick.
  destruct (generate_response_cases env w session_id user_text)
    as [[Hcase _]|(row & a & Hs & Ha & [[_ Hcase]|(c & Hllm & Hcase)])];
    rewrite Hcase in Hgr; [discriminate Hgr|discriminate Hgr|].
  injection Hgr as <- <-.
  set (u := new_row env w session_id Message.USER user_text).
  set (g := new_row env (world_llm_called env w a session_id user_text)
              session_id Message.AGENT c).
  set (rows := session_messages (db w) session_id).
  assert (Hrows : session_messages
                    (db (world_turn_done env w a session_id user_text c)) session_id
                  = rows ++ [u; g]) by apply session_messages_turn_done.
  pose proof (history_perm
                (db (world_turn_done env w a session_id user_text c)) session_id)
    as Hperm.
  pose proof (history_sorted
                (db (world_turn_done env w a session_id user_text c)) session_id)
    as Hsorted.
  rewrite Hrows in Hperm.
  destruct (sorted_newest_last _ (rows ++ [u]) g Hsorted) as (L1 & HL & Hp1 & Hs1).
  { by rewrite <- app_assoc. }
  { apply Forall_app. split.
    - eapply Forall_impl; [exact Hahead|]. simpl. intros m Hm. lia.
    - constructor; [exact Htick|constructor]. }
  destruct (sorted_newest_last _ rows u Hs1 Hp1 Hahead) as (L0 & -> & Hp0 & Hs0).
  exists L0. split; [done|]. split; [done|].
  assert (Hctx : get_session_context
                   (db (world_turn_done env w a session_id user_text c)) session_id
                 = map entry_of L0
                   ++ [MkEntry Message.USER user_text; MkEntry Message.AGENT c]).
  { rewrite get_session_context_map, HL, <- app_assoc, map_app. done. }
  split; [exact Hctx|].
  intros Hdistinct. rewrite Hctx, get_session_context_map. do 2 f_equal.
  apply (Sorted_unique_strong Message.created_le); [|done|apply history_sorted|].
  - intros m1 m2 H1 H2 H12 H21. apply Hdistinct.
    + by rewrite Hp0 in H1.
    + by rewrite history_perm in H2.
    + unfold Message.created_le in *. lia.
  - by rewrite Hp0, history_perm.
Qed.

Lemma next_turn_sees_this_turn_witness :
  let w' := (generate_response (store:=oldest_first_store) Scenario.env_up 1
               "What's 2+2?" Scenario.w_one_turn).1 in
  get_session_context (store:=oldest_first_store) (db w') 1
  = get_session_context (store:=oldest_first_store) (db Scenario.w_one_turn) 1
    ++ [MkEntry "user" "What's 2+2?"; MkEntry "agent" "Hello! How can I help?"].
Proof.
  intros w'.
  destruct (next_turn_sees_this_turn (store:=oldest_first_store) Scenario.env_up
              Scenario.w_one_turn w' 1 "What's 2+2?" "Hello! How can I help?")
    as (earlier & _ & _ & _ & Hctx).
  - vm_compute. reflexivity.
  - vm_compute. repeat constructor.
  - vm_compute. reflexivity.
  - apply Hctx.
    assert (Hrows : session_messages (db Scenario.w_one_turn) 1
                    = [Message.Build 1 1 "user" "Hi" 3;
                       Message.Build 2 1 "agent" "Hello! How can I help?" 4])
      by (vm_compute; reflexivity).
    rewrite Hrows. intros m1 m2 H1 H2.
    apply elem_of_cons in H1 as [->|H1]; apply elem_of_cons in H2 as [->|H2];
      try (apply list_elem_of_singleton in H1 as ->);
      try (apply list_elem_of_singleton in H2 as ->);
      simpl; intros Ht; first [reflexivity|discriminate Ht].
Defined.

(** ** The voice pipeline, end to end *)

Lemma write_chunks_pieces env path pieces w old :
  tmpdir w !! path = Some old →
  (length (old ++ concat pieces) ≤ tmp_capacity env)%nat →
  write_chunks env path (Chunk <$> pieces) w
  = (MkWorld (db w) (<[path := old ++ concat pieces]> (tmpdir w))
       (clock_reads w) (trace w), Return tt).
Proof.
  revert w old. induction pieces as [|data pieces IH]; intros w old Hold Hfits; simpl.
  - rewrite app_nil_r, insert_id by done. by destruct w.
  - simpl in Hfits. rewrite !length_app in Hfits.
    unfold bind at 1. unfold tmp_file_write, bind, get_world. rewrite Hold. simpl.
    rewrite decide_True by lia. simpl.
    rewrite (IH _ (old ++ data)); simpl.
    + by rewrite insert_insert_eq, <- app_assoc.
    + apply lookup_insert_eq.
    + rewrite <- app_assoc, !length_app. lia.
Qed.

Lemma write_chunks_Return env path cs w w1 old :
  tmpdir w !! path = Some old →
  (length old ≤ tmp_capacity env)%nat →
  write_chunks env path cs w = (w1, Return tt) →
  ∃ pieces, cs = Chunk <$> pieces
            ∧ (length (old ++ concat pieces) ≤ tmp_capacity env)%nat.
Proof.
  revert w old. induction cs as [|[data|] rest IH]; intros w old Hold Hfits; simpl.
  - intros _. exists []. by rewrite app_nil_r.
  - unfold bind at 1. unfold tmp_file_write, bind, get_world. rewrite Hold. simpl.
    case_decide as Hroom; simpl; [|done].
    intros Hrest. apply (IH _ (old ++ data)) in Hrest as (pieces & -> & Hlen).
    + exists (data :: pieces). split; [done|]. simpl. by rewrite app_assoc.
    + simpl. apply lookup_insert_eq.
    + by rewrite length_app.
  - done.
Qed.

Lemma speech_to_text_materialized env audio_file w pieces :
  chunks audio_file = Chunk <$> pieces →
  (length (concat pieces) ≤ tmp_capacity env)%nat →
  speech_to_text env audio_file w
  = (world_after_stt w (concat pieces),
     match transcriptions_create env (concat pieces) with
     | Some transcript => Return transcript
     | None => Raise TranscriptionError
     end).
Proof.
  intros Hchunks Hfits.
  assert (Hfresh : tmpdir w !! fresh (dom (tmpdir w)) = None)
    by (apply not_elem_of_dom, is_fresh).
  unfold speech_to_text. unfold bind at 1. unfold bind at 1.
  unfold NamedTemporaryFile, bind, get_world, put_tmpdir, emit, ret. simpl.
  set (path := fresh (dom (tmpdir w))) in *.
  rewrite Hchunks.
  rewrite (write_chunks_pieces env path pieces _ []);
    [|simpl; apply lookup_insert_eq|done].
  simpl. rewrite insert_insert_eq.
  unfold try_finally, transcribe_file, bind, get_world. simpl.
  rewrite lookup_insert_eq. simpl.
  assert (Hrestored : delete path (<[path := concat pieces]> (tmpdir w)) = tmpdir w).
  { rewrite delete_insert_eq. by apply delete_id. }
  unfold world_after_stt. fold path.
  destruct (transcriptions_create env (concat pieces)); simpl;
    unfold cleanup_temp_file, bind, get_world; simpl;
    rewrite lookup_insert_eq;
    (rewrite decide_True by eauto); simpl;
    rewrite Hrestored, <- !app_assoc; reflexivity.
Qed.

(** Every way [speech_to_text] can end. *)
Lemma speech_to_text_cases env audio_file w :
  (∃ w1 e, speech_to_text env audio_file w = (w1, Raise e)
           ∧ (e = UploadReadError ∨ e = DiskWriteError ∨ e = TranscriptionError))
  ∨ ∃ pieces transcript,
      chunks audio_file = Chunk <$> pieces
      ∧ (length (concat pieces) ≤ tmp_capacity env)%nat
      ∧ transcriptions_create env (concat pieces) = Some transcript
      ∧ speech_to_text env audio_file w
        = (world_after_stt w (concat pieces), Return transcript).
Proof.
  set (path := fresh (dom (tmpdir w))).
  set (w0 := MkWorld (db w) (<[path := []]> (tmpdir w)) (clock_reads w)
               (trace w ++ [EvTempFileCreated path])).
  destruct (write_chunks env path (chunks audio_file) w0) as [w1 r] eqn:Hwrite.
  destruct (write_chunks_tmpdir env path (chunks audio_file) w0) as (_ & _ & Hend).
  rewrite Hwrite in Hend. simpl in Hend.
  destruct Hend as [->|Hraise].
  - apply (write_chunks_Return env path _ w0 w1 []) in Hwrite
      as (pieces & Hchunks & Hfits);
      [|subst w0; simpl; apply lookup_insert_eq|simpl; lia].
    rewrite (speech_to_text_materialized env audio_file w pieces Hchunks Hfits).
    destruct (transcriptions_create env (concat pieces)) as [t|] eqn:Ht.
    + right. by exists pieces, t.
    + left. eexists _, _. split; [reflexivity|auto].
  - left. exists w1.
    assert (Hstt : ∀ e, r = Raise e →
              speech_to_text env audio_file w = (w1, Raise e)).
    { intros e ->. unfold speech_to_text. unfold bind at 1. unfold bind at 1.
      unfold NamedTemporaryFile, bind, get_world, put_tmpdir, emit, ret. simpl.
      fold path. fold w0. by rewrite Hwrite. }
    destruct Hraise as [->| ->]; eexists; (split; [by apply Hstt|auto]).
Qed.

(** X15: speech-to-text returns a transcript exactly when every chunk of the
    upload can be read, the chunks fit into the temporary directory and the
    transcription endpoint answers.  The audio sent to the endpoint is the
    chunks of the upload joined in order; afterwards the temporary file is
    gone and the store has not been touched. *)
Theorem speech_to_text_returns (env : Env) (audio_file : UploadedFile)
    (w w1 : World) (transcript : string) :
  speech_to_text env audio_file w = (w1, Return transcript)
  ↔ ∃ pieces,
      chunks audio_file = Chunk <$> pieces
      ∧ (length (concat pieces) ≤ tmp_capacity env)%nat
      ∧ transcriptions_create env (concat pieces) = Some transcript
      ∧ w1 = MkWorld (db w) (tmpdir w) (clock_reads w)
               (trace w ++ [EvTempFileCreated (fresh (dom (tmpdir w)));
                            EvTranscribe (fresh (dom (tmpdir w))) (concat pieces);
                            EvTempFileRemoved (fresh (dom (tmpdir w)))]).
Proof.
  split.
  - intros Hstt.
    destruct (speech_to_text_cases env audio_file w)
      as [(w2 & e & Hcase & _)|(pieces & t & Hchunks & Hfits & Ht & Hcase)];
      rewrite Hcase in Hstt; [discriminate Hstt|].
    injection Hstt as <- <-. by exists pieces.
  - intros (pieces & Hchunks & Hfits & Ht & ->).
    rewrite (speech_to_text_materialized env audio_file w pieces Hchunks Hfits).
    by rewrite Ht.
Qed.

Lemma speech_to_text_returns_witness :
  ∃ w1, speech_to_text Scenario.env_up
          (MkUpload [Chunk Scenario.greeting; Chunk Scenario.reply_audio])
          Scenario.w_one_turn = (w1, Return "Hi"%string)
        ∧ trace w1
          = trace Scenario.w_one_turn
            ++ [EvTempFileCreated 0;
                EvTranscribe 0 (Scenario.greeting ++ Scenario.reply_audio);
                EvTempFileRemoved 0].
Proof.
  eexists. split.
  - apply speech_to_text_returns.
    exists [Scenario.greeting; Scenario.reply_audio].
    split; [reflexivity|]. split; [vm_compute; lia|]. split; reflexivity.
  - vm_compute. reflexivity.
Defined.

Lemma process_voice_message_returned {store : RecordStore} (env : Env)
    (w w' : World) (session_id : Z) (audio_file : UploadedFile)
    (result : list byte) :
  process_voice_message env session_id audio_file w = (w', Return result) →
  ∃ pieces transcript reply user_msg agent_msg rendered,
    chunks audio_file = Chunk <$> pieces
    ∧ transcriptions_create env (concat pieces) = Some transcript
    ∧ llm_invoke env rendered = Some reply
    ∧ speech_create env reply = Some result
    ∧ messages (db w') = messages (db w) ++ [user_msg; agent_msg]
    ∧ (Message.role user_msg = Message.USER
       ∧ Message.content user_msg = transcript)
    ∧ (Message.role agent_msg = Message.AGENT
       ∧ Message.content agent_msg = reply)
    ∧ tmpdir w' = tmpdir w
    ∧ trace w'
      = trace w
        ++ [EvTempFileCreated (fresh (dom (tmpdir w)));
            EvTranscribe (fresh (dom (tmpdir w))) (concat pieces);
            EvTempFileRemoved (fresh (dom (tmpdir w)));
            EvMessageCreated user_msg; EvLLMInvoke rendered;
            EvMessageCreated agent_msg; EvSpeechCreate reply].
Proof.
  unfold process_voice_message. unfold bind at 1.
  destruct (speech_to_text_cases env audio_file w)
    as [(w1 & e & -> & _)|(pieces & t & Hchunks & Hfits & Ht & ->)]; [done|].
  unfold bind at 1.
  destruct (generate_response_cases env (world_after_stt w (concat pieces))
              session_id t)
    as [[-> _]|(row & a & Hs & Ha & [[_ ->]|(c & Hllm & ->)])]; [done|done|].
  unfold bind, text_to_speech, bind, emit. simpl.
  destruct (speech_create env c) as [audio|] eqn:Htts; simpl; [|done].
  intros [= <- <-].
  exists pieces, t, c,
    (new_row env (world_after_stt w (concat pieces)) session_id Message.USER t),
    (new_row env (world_llm_called env (world_after_stt w (concat pieces)) a
                    session_id t) session_id Message.AGENT c),
    (rendered_for (world_after_stt w (concat pieces)) a session_id t).
  repeat (split; [done|]).
  split; [simpl; by rewrite <- app_assoc|].
  repeat (split; [done|]).
  simpl. by rewrite <- !app_assoc.
Qed.

(** X16: a voice turn that returns audio went through the three steps in
    order: the upload was transcribed, the transcript was answered as a chat
    turn (two messages appended, the user message holding the transcript),
    and the agent's reply was synthesized; the bytes returned are the speech
    client's answer for that reply, and the temporary directory is as
    before. *)
Theorem process_voice_message_success {store : RecordStore} (env : Env)
    (w w' : World) (session_id : Z) (audio_file : UploadedFile)
    (result : list byte) :
  process_voice_message env session_id audio_file w = (w', Return result) →
  ∃ pieces transcript reply user_msg agent_msg rendered,
    chunks audio_file = Chunk <$> pieces
    ∧ transcriptions_create env (concat pieces) = Some transcript
    ∧ llm_invoke env rendered = Some reply
    ∧ speech_create env reply = Some result
    ∧ messages (db w') = messages (db w) ++ [user_msg; agent_msg]
    ∧ (Message.role user_msg = Message.USER
       ∧ Message.content user_msg = transcript)
    ∧ (Message.role agent_msg = Message.AGENT
       ∧ Message.content agent_msg = reply)
    ∧ tmpdir w' = tmpdir w
    ∧ trace w'
      = trace w
        ++ [EvTempFileCreated (fresh (dom (tmpdir w)));
            EvTranscribe (fresh (dom (tmpdir w))) (concat pieces);
            EvTempFileRemoved (fresh (dom (tmpdir w)));
            EvMessageCreated user_msg; EvLLMInvoke rendered;
            EvMessageCreated agent_msg; EvSpeechCreate reply].
Proof. apply process_voice_message_returned. Qed.

Lemma process_voice_message_success_witness :
  let w' := (process_voice_message (store:=oldest_first_store) Scenario.env_up 1
               Scenario.upload Scenario.w_one_turn).1 in
  length (messages (db w')) = 4%nat
  ∧ tmpdir w' = tmpdir Scenario.w_one_turn.
Proof.
  intros w'.
  destruct (process_voice_message_success (store:=oldest_first_store)
              Scenario.env_up Scenario.w_one_turn w' 1 Scenario.upload
              Scenario.reply_audio)
    as (pieces & t & c & u & g & r & _ & _ & _ & _ & Hm & _ & _ & Htmp & _);
    [vm_compute; reflexivity|].
  split; [|exact Htmp]. rewrite Hm, length_app. vm_compute. reflexivity.
Defined.

(** X17: when the upload is transcribed and the LLM client then fails, the
    voice turn fails with the LLM's error and text-to-speech is never called:
    the trace ends at the LLM call.  The transcript is stored as the
    session's new user message all the same, and the temporary file is
    gone. *)
Theorem process_voice_message_llm_failure {store : RecordStore} (env : Env)
    (w : World) (session_id : Z) (audio_file : UploadedFile)
    (pieces : list (list byte)) (transcript : string)
    (row : ChatSession.t) (a : Agent.t) :
  chunks audio_file = Chunk <$> pieces →
  (length (concat pieces) ≤ tmp_capacity env)%nat →
  transcriptions_create env (concat pieces) = Some transcript →
  sessions (db w) !! session_id = Some row →
  agents (db w) !! ChatSession.agent row = Some a →
  llm_invoke env (rendered_for w a session_id transcript) = None →
  ∃ w' user_msg,
    process_voice_message env session_id audio_file w = (w', Raise LLMError)
    ∧ messages (db w') = messages (db w) ++ [user_msg]
    ∧ (Message.session user_msg = session_id
       ∧ Message.role user_msg = Message.USER
       ∧ Message.content user_msg = transcript)
    ∧ tmpdir w' = tmpdir w
    ∧ trace w'
      = trace w
        ++ [EvTempFileCreated (fresh (dom (tmpdir w)));
            EvTranscribe (fresh (dom (tmpdir w))) (concat pieces);
            EvTempFileRemoved (fresh (dom (tmpdir w)));
            EvMessageCreated user_msg;
            EvLLMInvoke (rendered_for w a session_id transcript)].
Proof.
  intros Hchunks Hfits Ht Hs Ha Hllm.
  exists (world_llm_called env (world_after_stt w (concat pieces)) a session_id
            transcript),
    (new_row env (world_after_stt w (concat pieces)) session_id Message.USER
       transcript).
  split.
  - unfold process_voice_message. unfold bind at 1.
    rewrite (speech_to_text_materialized env audio_file w pieces Hchunks Hfits), Ht.
    unfold bind at 1.
    rewrite (generate_response_found env (world_after_stt w (concat pieces))
               session_id transcript row a Hs Ha).
    change (rendered_for (world_after_stt w (concat pieces)) a session_id transcript)
      with (rendered_for w a session_id transcript).
    by rewrite Hllm.
  - repeat (split; [done|]). simpl. by rewrite <- !app_assoc.
Qed.

Lemma process_voice_message_llm_failure_witness :
  ∃ w' user_msg,
    process_voice_message (store:=oldest_first_store) Scenario.env_llm_down 1
      Scenario.upload Scenario.w_one_turn = (w', Raise LLMError)
    ∧ messages (db w') = messages (db Scenario.w_one_turn) ++ [user_msg]
    ∧ Message.content user_msg = "Hi"%string.
Proof.
  destruct (process_voice_message_llm_failure (store:=oldest_first_store)
              Scenario.env_llm_down Scenario.w_one_turn 1 Scenario.upload
              [Scenario.greeting] "Hi"%string
              (ChatSession.Build 1 2)
              (Agent.Build "Test Agent" "You are a helpful assistant." 0 1))
    as (w' & u & Hrun & Hm & (_ & _ & Hc) & _);
    [reflexivity|vm_compute; lia|reflexivity|vm_compute; reflexivity
    |vm_compute; reflexivity|reflexivity|].
  by exists w', u.
Defined.

(** X18: for a session that does not exist the voice endpoint answers 404
    before anything else happens: no temporary file, no transcription.  The
    service called on its own would transcribe the upload first and only
    then find the session missing. *)
Theorem voice_message_unknown_session {store : RecordStore} (env : Env)
    (init : option Exception) (w : World) (session_id : Z)
    (audio_file : UploadedFile) :
  sessions (db w) !! session_id = None →
  send_voice_message env init (Valid (session_id, audio_file)) w
  = (w, MkResponse 404 (ErrorPayload "Chat session not found"))
  ∧ ∀ pieces transcript,
      chunks audio_file = Chunk <$> pieces →
      (length (concat pieces) ≤ tmp_capacity env)%nat →
      transcriptions_create env (concat pieces) = Some transcript →
      process_voice_message env session_id audio_file w
      = (MkWorld (db w) (tmpdir w) (clock_reads w)
           (trace w ++ [EvTempFileCreated (fresh (dom (tmpdir w)));
                        EvTranscribe (fresh (dom (tmpdir w))) (concat pieces);
                        EvTempFileRemoved (fresh (dom (tmpdir w)))]),
         Raise DoesNotExist).
Proof.
  intros Hs. split.
  - unfold send_voice_message, ChatSession_objects_get_id, bind, get_world.
    by rewrite Hs.
  - intros pieces t Hchunks Hfits Ht. unfold process_voice_message.
    unfold bind at 1.
    rewrite (speech_to_text_materialized env audio_file w pieces Hchunks Hfits), Ht.
    unfold bind. by rewrite generate_response_no_session.
Qed.

Lemma voice_message_unknown_session_witness :
  send_voice_message (store:=oldest_first_store) Scenario.env_up None
    (Valid (999, Scenario.upload)) Scenario.w_one_turn
  = (Scenario.w_one_turn, MkResponse 404 (ErrorPayload "Chat session not found"))
  ∧ trace (process_voice_message (store:=oldest_first_store) Scenario.env_up 999
             Scenario.upload Scenario.w_one_turn).1
    ≠ trace Scenario.w_one_turn.
Proof.
  destruct (voice_message_unknown_session (store:=oldest_first_store)
              Scenario.env_up None Scenario.w_one_turn 999 Scenario.upload)
    as [Hview Hservice]; [vm_compute; reflexivity|].
  split; [exact Hview|].
  rewrite (Hservice [Scenario.greeting] "Hi"%string);
    [|reflexivity|vm_compute; lia|reflexivity].
  vm_compute. discriminate.
Defined.

(** ** The two endpoints *)

(** X19: every answer of the text endpoint is one of four.  A request that
    fails validation gets 400 and an unknown session (or one whose agent row
    is missing) gets 404, and neither changes anything.  A 500 means the LLM call failed, and the user's
    message is stored all the same.  A 200 carries the user's text and the
    agent's reply, and both are stored, in that order. *)
Theorem send_message_responses {store : RecordStore} (env : Env) (w : World)
    (request : Validated (Z * string)) :
  let w' := (send_message env None request w).1 in
  let response := (send_message env None request w).2 in
  (request = NotValid ∧ response = MkResponse 400 ValidationErrors ∧ w' = w)
  ∨ ∃ session_id text,
      request = Valid (session_id, text)
      ∧ ((response = MkResponse 404 (ErrorPayload "Chat session not found")
          ∧ w' = w
          ∧ (sessions (db w) !! session_id = None
             ∨ ∃ row, sessions (db w) !! session_id = Some row
                      ∧ agents (db w) !! ChatSession.agent row = None))
         ∨ (∃ user_msg,
              response = MkResponse 500 (ExceptionPayload LLMError)
              ∧ messages (db w') = messages (db w) ++ [user_msg]
              ∧ Message.role user_msg = Message.USER
              ∧ Message.content user_msg = text)
         ∨ (∃ reply user_msg agent_msg,
              response = MkResponse 200 (TurnPayload text reply)
              ∧ messages (db w') = messages (db w) ++ [user_msg; agent_msg]
              ∧ (Message.role user_msg = Message.USER
                 ∧ Message.content user_msg = text)
              ∧ (Message.role agent_msg = Message.AGENT
                 ∧ Message.content agent_msg = reply))).
Proof.
  intros w' response. subst w' response.
  destruct request as [[session_id text]|]; [right|left; done].
  exists session_id, text. split; [done|].
  unfold send_message, construct, bind, ret.
  destruct (generate_response_cases env w session_id text)
    as [[-> Hmissing]|(row & a & Hs & Ha & [[_ ->]|(c & _ & ->)])]; cbn [fst snd].
  - by left.
  - right. left. by eexists.
  - right. right. eexists c, _, _. split; [done|].
    by rewrite messages_turn_done.
Qed.

Lemma send_voice_message_found {store : RecordStore} env w session_id audio_file row :
  sessions (db w) !! session_id = Some row →
  send_voice_message env None (Valid (session_id, audio_file)) w
  = match process_voice_message env session_id audio_file w with
    | (w', Return agent_audio) =>
        (w', MkResponse 200
               (FilePayload "agent_response.mp3" "audio/mpeg" true agent_audio))
    | (w', Raise DoesNotExist) =>
        (w', MkResponse 404 (ErrorPayload "Chat session not found"))
    | (w', Raise e) => (w', MkResponse 500 (ExceptionPayload e))
    end.
Proof.
  intros Hs. unfold send_voice_message, ChatSession_objects_get_id, construct.
  unfold bind at 1. unfold bind at 1. unfold get_world at 1. rewrite Hs. simpl.
  unfold bind at 1. simpl. reflexivity.
Qed.

Lemma send_voice_message_missing {store : RecordStore} env init w session_id audio_file :
  sessions (db w) !! session_id = None →
  send_voice_message env init (Valid (session_id, audio_file)) w
  = (w, MkResponse 404 (ErrorPayload "Chat session not found")).
Proof.
  intros Hs. unfold send_voice_message, ChatSession_objects_get_id, bind, get_world.
  by rewrite Hs.
Qed.

(** X20: in a reachable world the voice endpoint answers 404 exactly when
    the session does not exist, and then it has done nothing.  A 200 carries
    the synthesized audio of the agent's reply as the attachment
    agent_response.mp3 of type audio/mpeg; the reply is the last message
    stored, and the temporary directory is as before. *)
Theorem send_voice_message_responses {store : RecordStore} (env : Env)
    (w : World) (session_id : Z) (audio_file : UploadedFile) :
  reachable w →
  let w' := (send_voice_message env None (Valid (session_id, audio_file)) w).1 in
  let response :=
    (send_voice_message env None (Valid (session_id, audio_file)) w).2 in
  (status_code response = 404 ↔ sessions (db w) !! session_id = None)
  ∧ (status_code response = 404 → w' = w)
  ∧ (status_code response = 200 →
     ∃ reply audio agent_msg,
       payload response = FilePayload "agent_response.mp3" "audio/mpeg" true audio
       ∧ speech_create env reply = Some audio
       ∧ last (messages (db w')) = Some agent_msg
       ∧ Message.role agent_msg = Message.AGENT
       ∧ Message.content agent_msg = reply
       ∧ tmpdir w' = tmpdir w)
  ∧ (status_code response = 200 ∨ status_code response = 404
     ∨ status_code response = 500).
Proof.
  intros Hreach w' response. subst w' response.
  destruct (reachable_references w Hreach) as [_ Hagents].
  destruct (sessions (db w) !! session_id) as [row|] eqn:Hs.
  2: { rewrite send_voice_message_missing by done. simpl.
       split; [done|]. split; [done|]. split; [done|]. auto. }
  rewrite (send_voice_message_found env w session_id audio_file row Hs).
  destruct (process_voice_message env session_id audio_file w) as [w1 [audio|e]]
    eqn:Hvoice; cbn [fst snd].
  - simpl. split; [done|]. split; [done|]. split; [|auto]. intros _.
    destruct (process_voice_message_returned env w w1 session_id audio_file audio
                Hvoice)
      as (pieces & t & c & u & g & r & _ & _ & _ & Htts & Hm & _ & Hg & Htmp & _).
    exists c, audio, g. split; [done|]. split; [done|].
    split; [rewrite Hm, (app_assoc _ [u] [g]); apply last_snoc|].
    by destruct Hg.
  - assert (Hne : e ≠ DoesNotExist).
    { intros ->. revert Hvoice. unfold process_voice_message. unfold bind at 1.
      destruct (speech_to_text_cases env audio_file w)
        as [(w2 & e & -> & [->|[->| ->]])|(pieces & t & _ & _ & _ & ->)];
        [done|done|done|].
      unfold bind at 1.
      destruct (Hagents session_id row Hs) as [a Ha].
      rewrite (generate_response_found env (world_after_stt w (concat pieces))
                 session_id t row a Hs Ha).
      destruct (llm_invoke env _) as [c|]; [|done].
      unfold bind, text_to_speech, bind, emit. simpl.
      by destruct (speech_create env c). }
    destruct e; simpl; try done; (split; [done|]); (split; [done|]);
      (split; [done|auto]).
Qed.

Lemma send_voice_message_responses_witness :
  let response :=
    (send_voice_message (store:=oldest_first_store) Scenario.env_up None
       (Valid (1, Scenario.upload)) Scenario.w_one_turn).2 in
  status_code response = 200
  ∧ ∃ reply, speech_create Scenario.env_up reply = Some Scenario.reply_audio
             ∧ payload response
               = FilePayload "agent_response.mp3" "audio/mpeg" true
                   Scenario.reply_audio.
Proof.
  intros response.
  assert (Hstatus : status_code response = 200) by (vm_compute; reflexivity).
  split; [exact Hstatus|].
  destruct (send_voice_message_responses (store:=oldest_first_store)
              Scenario.env_up Scenario.w_one_turn 1 Scenario.upload
              w_one_turn_reachable) as (_ & _ & Hok & _).
  destruct (Hok Hstatus) as (reply & audio & g & Hpayload & Htts & _).
  exists reply. split; [|vm_compute; reflexivity].
  rewrite Htts. f_equal.
  assert (Hp : payload response
               = FilePayload "agent_response.mp3" "audio/mpeg" true
                   Scenario.reply_audio) by (vm_compute; reflexivity).
  fold response in Hpayload. rewrite Hp in Hpayload. by injection Hpayload as <-.
Defined.
